(** * Word-count scoring service: a shallow embedding of [main.go]

    The development follows the layout of the Go file: the scorer
    ([WordScorerConfig], [NewWordScorer], [CountWords], [CalculateScore]),
    then the HTTP handler ([ScoreRequest], [ScoreResponse], [PostScore]).
    The pieces of the Go runtime and standard library the program calls
    ([strings.Fields], [unicode.IsSpace], [math.Round], [log.Output],
    binary64 arithmetic, conversions between [int] and [float64]) are
    modelled first, each in a module named after its Go package.  Module
    [memory] gives the scorer's functions once more with pointers, the
    heap and run-time panics made explicit.

    The definitions come first.  The results follow: word counting,
    construction, the scores that need no arithmetic, then the facts on
    binary64 rounding that the interpolation rests on (monotonicity,
    exactness on integers up to [2^53], relative error [2^-53], agreement
    with the bit-level model of the Standard Library), and last the
    interpolated score, the clamps, monotonicity and the handler. *)

From Stdlib Require Import ZArith QArith Qround Qabs Qpower Lia Lqa.
From Stdlib Require Import List String Ascii Bool Morphisms SpecFloat.
From Stdlib Require Import DecimalString.
Import ListNotations.

Local Open Scope string_scope.
Local Open Scope list_scope.
Local Open Scope Z_scope.

(* ===================================================================== *)
(** * Go's [int] on 64-bit targets *)
(* ===================================================================== *)

Module goint.

Definition min_int : Z := - 2 ^ 63.
Definition max_int : Z := 2 ^ 63 - 1.

(** Two's complement wrap-around of an arithmetic result. *)
Definition wrap (z : Z) : Z := (z + 2 ^ 63) mod 2 ^ 64 - 2 ^ 63.

Definition sub (a b : Z) : Z := wrap (a - b).

Definition in_range (z : Z) : bool := (min_int <=? z) && (z <=? max_int).

End goint.

(* ===================================================================== *)
(** * Strings: bytes, UTF-8 decoding, white space *)
(* ===================================================================== *)

(** A Go string is a sequence of bytes; [string] is used as such. *)

Definition rune := Z.

Definition byte_val (c : ascii) : Z := Z.of_N (N_of_ascii c).

Module utf8.

Definition RuneError : rune := 65533.   (* U+FFFD *)

Definition continuation (b : Z) : bool := (128 <=? b) && (b <=? 191).

(** Size of the sequence announced by a leading byte and the range its
    second byte must lie in (Go's [first] and [acceptRanges] tables);
    [None] for ASCII and for bytes that cannot start a sequence. *)
Definition lead (b0 : Z) : option (nat * (Z * Z)) :=
  if (194 <=? b0) && (b0 <=? 223) then Some (2%nat, (128, 191))
  else if b0 =? 224 then Some (3%nat, (160, 191))
  else if (225 <=? b0) && (b0 <=? 236) then Some (3%nat, (128, 191))
  else if b0 =? 237 then Some (3%nat, (128, 159))
  else if (238 <=? b0) && (b0 <=? 239) then Some (3%nat, (128, 191))
  else if b0 =? 240 then Some (4%nat, (144, 191))
  else if (241 <=? b0) && (b0 <=? 243) then Some (4%nat, (128, 191))
  else if b0 =? 244 then Some (4%nat, (128, 143))
  else None.

(** [DecodeRuneInString]: the first rune of a non-empty byte sequence
    and its width in bytes; an invalid or truncated sequence decodes to
    [RuneError] with width 1. *)
Definition DecodeRune (b0 : Z) (rest : list Z) : rune * nat :=
  match lead b0 with
  | None => if b0 <? 128 then (b0, 1%nat) else (RuneError, 1%nat)
  | Some (sz, (lo, hi)) =>
      match rest with
      | b1 :: rest1 =>
          if (b1 <? lo) || (hi <? b1) then (RuneError, 1%nat)
          else if (sz <=? 2)%nat then
            (Z.lor (Z.shiftl (Z.land b0 31) 6) (Z.land b1 63), 2%nat)
          else
            match rest1 with
            | b2 :: rest2 =>
                if negb (continuation b2) then (RuneError, 1%nat)
                else if (sz <=? 3)%nat then
                  (Z.lor (Z.lor (Z.shiftl (Z.land b0 15) 12)
                                (Z.shiftl (Z.land b1 63) 6))
                         (Z.land b2 63), 3%nat)
                else
                  match rest2 with
                  | b3 :: _ =>
                      if negb (continuation b3) then (RuneError, 1%nat)
                      else
                        (Z.lor (Z.lor (Z.lor (Z.shiftl (Z.land b0 7) 18)
                                             (Z.shiftl (Z.land b1 63) 12))
                                      (Z.shiftl (Z.land b2 63) 6))
                               (Z.land b3 63), 4%nat)
                  | [] => (RuneError, 1%nat)
                  end
            | [] => (RuneError, 1%nat)
            end
      | [] => (RuneError, 1%nat)
      end
  end.

(** The iteration [for _, r := range s]: the runes of [s] in order, each
    with the bytes it was decoded from.  [skip] counts the bytes of the
    current rune that are still to be passed over. *)
Fixpoint range_from (skip : nat) (s : string) : list (rune * string) :=
  match s with
  | EmptyString => []
  | String c s' =>
      match skip with
      | S k => range_from k s'
      | O =>
          let (r, w) := DecodeRune (byte_val c) (map byte_val (list_ascii_of_string s')) in
          (r, substring 0 w s) :: range_from (pred w) s'
      end
  end.

Definition range (s : string) : list (rune * string) := range_from 0 s.

End utf8.

Module unicode.

Definition MaxLatin1 : rune := 255.

(** [IsSpace]: the Latin-1 cases are spelled out in the Go source, the
    others are the [White_Space] range table. *)
Definition IsSpace (r : rune) : bool :=
  if r <=? MaxLatin1 then
    (r =? 9) || (r =? 10) || (r =? 11) || (r =? 12) || (r =? 13)
    || (r =? 32) || (r =? 133) || (r =? 160)
  else
    (r =? 5760) || ((8192 <=? r) && (r <=? 8202))
    || (r =? 8232) || (r =? 8233) || (r =? 8239) || (r =? 8287)
    || (r =? 12288).

End unicode.

Module strings.

(** The scanning loop of [FieldsFunc]: [cur] is the field being read
    ([None] when the scanner is between fields, Go's [start < 0]). *)
Fixpoint FieldsFunc_loop (f : rune -> bool) (cur : option string)
         (rs : list (rune * string)) : list string :=
  match rs with
  | [] =>
      match cur with
      | Some fld => [fld]          (* last field might end at EOF *)
      | None => []
      end
  | (r, bytes) :: rest =>
      if f r then
        match cur with
        | Some fld => fld :: FieldsFunc_loop f None rest
        | None => FieldsFunc_loop f None rest
        end
      else
        match cur with
        | Some fld => FieldsFunc_loop f (Some (fld ++ bytes)%string) rest
        | None => FieldsFunc_loop f (Some bytes) rest
        end
  end.

Definition FieldsFunc (s : string) (f : rune -> bool) : list string :=
  FieldsFunc_loop f None (utf8.range s).

(** [Fields] splits around each instance of one or more consecutive
    white space characters, as defined by [unicode.IsSpace]. *)
Definition Fields (s : string) : list string :=
  FieldsFunc s unicode.IsSpace.

End strings.

Definition len {A} (l : list A) : Z := Z.of_nat (List.length l).


(* ===================================================================== *)
(** * [float64]: IEEE 754 binary64 arithmetic *)
(* ===================================================================== *)

(** A finite binary64 value is represented by the rational it denotes.
    Every operation returns the exact result rounded to 53 significant
    bits, to nearest with ties to even, which is how IEEE 754 defines
    [+], [*], [/] and the conversion from integers.  The operands of
    [CalculateScore] are conversions of [int] values and one quotient of
    two positive such values, so that infinities, NaN and the subnormal
    range are out of reach (lemma [calculatedScore_normal] below); the
    exponent is therefore left unbounded.  Module [ieee754] further down
    runs the same computation on the reference implementation of binary64
    that comes with the Standard Library, and the two are proved to agree
    (lemma [models_agree_without_fusion]). *)

Module float64.

Local Open Scope Q_scope.

Definition prec : Z := 53.

(** Binary exponent of a positive rational: [floor (log2 x)]. *)
Definition ilogb (x : Q) : Z :=
  let k := (Z.log2 (Qnum x) - Z.log2 (Zpos (Qden x)))%Z in
  if Qle_bool (2 ^ k) x then k else (k - 1)%Z.

(** Nearest integer, ties to even. *)
Definition rne (x : Q) : Z :=
  let f := Qfloor x in
  match Qcompare (x - inject_Z f) (1 # 2) with
  | Lt => f
  | Gt => (f + 1)%Z
  | Eq => if Z.even f then f else (f + 1)%Z
  end.

(** Rounding of a real result to binary64. *)
Definition RN (x : Q) : Q :=
  if Qeq_bool x 0 then 0
  else
    let e := (ilogb (Qabs x) - (prec - 1))%Z in
    inject_Z (rne (x / 2 ^ e)) * 2 ^ e.

(** [float64(n)] for an [int] [n]. *)
Definition of_int (n : Z) : Q := RN (inject_Z n).

Definition add (x y : Q) : Q := RN (x + y).
Definition mul (x y : Q) : Q := RN (x * y).
Definition div (x y : Q) : Q := RN (x / y).

(** Fused multiply-add [x*y + z], rounded once. *)
Definition fma (x y z : Q) : Q := RN (x * y + z).

(** Truncation toward zero. *)
Definition trunc (x : Q) : Z :=
  if Qle_bool 0 x then Qfloor x else Qceiling x.

(** Zero, or a magnitude in the range of the normal numbers of binary64. *)
Definition normal (x : Q) : bool :=
  Qeq_bool x 0
  || (Qle_bool (2 ^ (-1022)) (Qabs x) && negb (Qle_bool (2 ^ 1024) (Qabs x))).

End float64.

(** What the Go specification leaves to the implementation.  The
    compiler may fuse [x + y*z] into one operation that rounds once; and
    the result of converting to [int] a floating-point value that [int]
    cannot represent is implementation-dependent. *)
Record Arch := {
  fuses_multiply_add : bool;
  int_of_unrepresentable : Q -> Z
}.

(** amd64 (baseline): no fusion; CVTTSD2SQ answers the "integer
    indefinite" value [-2^63] when the operand is out of range. *)
Definition amd64 : Arch :=
  {| fuses_multiply_add := false;
     int_of_unrepresentable := fun _ => goint.min_int |}.

(** arm64: FMADDD is used for [x + y*z]; FCVTZS saturates. *)
Definition arm64 : Arch :=
  {| fuses_multiply_add := true;
     int_of_unrepresentable :=
       fun x => if Qle_bool 0 x then goint.max_int else goint.min_int |}.

Module math.

Local Open Scope Q_scope.

(** [math.Round]: nearest integer, rounding half away from zero.  This
    is the reference formulation given in the Go source:
    [t := Trunc(x); if Abs(x-t) >= 0.5 { return t + Copysign(1, x) }; return t]. *)
Definition Round (x : Q) : Q :=
  let t := float64.trunc x in
  if Qle_bool (1 # 2) (Qabs (x - inject_Z t)) then
    inject_Z (if Qle_bool 0 x then t + 1 else t - 1)%Z
  else inject_Z t.

End math.

(** The conversion [int(x)] of a [float64]: the fraction is discarded. *)
Definition int_of_float64 (arch : Arch) (x : Q) : Z :=
  let z := float64.trunc x in
  if goint.in_range z then z
  else goint.wrap (int_of_unrepresentable arch x).

(* ===================================================================== *)
(** * Packages [fmt] and [log] *)
(* ===================================================================== *)

Module fmt.

(** The verb [%d] on an [int]: decimal digits, with a minus sign before
    a negative number. *)
Definition d (z : Z) : string := NilZero.string_of_int (Z.to_int z).

End fmt.

Module log.

Definition error := string.

(** The standard logger: the events written so far, and the error its
    writer (standard error) answers to [Write], [None] when writes
    succeed.  An event is kept as its text, without the date and time
    the logger puts before it and without the line feed that ends it. *)
Record Logger := { write_error : option error; lines : list string }.

(** [log.Output] writes the text of a logging event and returns the
    error of the write. *)
Definition Output (calldepth : Z) (s : string) (l : Logger)
  : option error * Logger :=
  match write_error l with
  | None => (None, {| write_error := None; lines := lines l ++ [s] |})
  | Some e => (Some e, l)
  end.

Definition Println (s : string) (l : Logger) : Logger :=
  snd (Output 2 s l).


End log.

(* ===================================================================== *)
(** * Scoring logic *)
(* ===================================================================== *)

Record WordScorerConfig := {
  MinScore : Z;
  MaxScore : Z;
  ThresholdWordsForMaxScore : Z
}.

Record WordScorer := { config : WordScorerConfig }.

(** [NewWordScorer]: the pointer result is [None] for [nil]. *)
Definition NewWordScorer (config : WordScorerConfig) (l : log.Logger)
  : (option WordScorer * option log.error) * log.Logger :=
  if MinScore config <? 0 then
    let (err, l') := log.Output 1 "MinScore cannot be negative" l in
    ((None, err), l')
  else if MaxScore config <? MinScore config then
    let (err, l') := log.Output 1 "MaxScore cannot be less than MinScore" l in
    ((None, err), l')
  else if ThresholdWordsForMaxScore config <=? 0 then
    let (err, l') := log.Output 1 "ThresholdWordsForMaxScore must be positive" l in
    ((None, err), l')
  else ((Some {| config := config |}, None), l).

Definition CountWords (s : WordScorer) (text : string) : Z :=
  len (strings.Fields text).

Section Scoring.

Variable arch : Arch.

(** [float64(MinScore) + (progress * scoreRange)] *)
Definition add_mul (z x y : Q) : Q :=
  if fuses_multiply_add arch then float64.fma x y z
  else float64.add z (float64.mul x y).

(** Lines 57 to 59 of [CalculateScore]. *)
Definition calculatedScore (s : WordScorer) (wordCount : Z) : Q :=
  let scoreRange :=
    float64.of_int (goint.sub (MaxScore (config s)) (MinScore (config s))) in
  let progress :=
    float64.div (float64.of_int wordCount)
                (float64.of_int (ThresholdWordsForMaxScore (config s))) in
  add_mul (float64.of_int (MinScore (config s))) progress scoreRange.

(** Line 61. *)
Definition finalScore (s : WordScorer) (wordCount : Z) : Z :=
  int_of_float64 arch (math.Round (calculatedScore s wordCount)).

Definition CalculateScore (s : WordScorer) (text : string) : Z :=
  let wordCount := CountWords s text in
  if wordCount =? 0 then MinScore (config s)
  else if wordCount >=? ThresholdWordsForMaxScore (config s) then
    MaxScore (config s)
  else
    let finalScore := finalScore s wordCount in
    if finalScore <? MinScore (config s) then MinScore (config s)
    else if finalScore >? MaxScore (config s) then MaxScore (config s)
    else finalScore.

End Scoring.

(** The interpolation once more, this time on [spec_float], the
    bit-level model of IEEE 754 of the Standard Library, with the
    parameters of binary64 and without fusion.  It serves as a cross-check
    of [float64.RN]; [located] and [represents] relate its data to the
    reals. *)
Module ieee754.

Definition mantissa_bits : Z := 53.
Definition emax : Z := 1024.

Definition from_int (n : Z) : spec_float :=
  binary_normalize mantissa_bits emax n 0 false.

Definition value (f : spec_float) : option Q :=
  match f with
  | S754_zero _ => Some 0%Q
  | S754_finite s m e =>
      Some ((if s then inject_Z (Zneg m) else inject_Z (Zpos m)) * 2 ^ e)%Q
  | _ => None
  end.

Definition interpolate (s : WordScorer) (wordCount : Z) : spec_float :=
  let scoreRange :=
    from_int (goint.sub (MaxScore (config s)) (MinScore (config s))) in
  let progress :=
    SFdiv mantissa_bits emax (from_int wordCount)
          (from_int (ThresholdWordsForMaxScore (config s))) in
  SFadd mantissa_bits emax (from_int (MinScore (config s)))
        (SFmul mantissa_bits emax progress scoreRange).

Local Open Scope Q_scope.

(** [located y mrs]: the record stands for the real [y], whose integer
    part is [shr_m] and whose fraction is below, at or above one half as
    the rounding and sticky bits tell. *)
Definition located (y : Q) (mrs : shr_record) : Prop :=
  let m := inject_Z (shr_m mrs) in
  match shr_r mrs, shr_s mrs with
  | false, false => y == m
  | false, true => m < y /\ y < m + (1 # 2)
  | true, false => y == m + (1 # 2)
  | true, true => m + (1 # 2) < y /\ y < m + 1
  end.

(** [represents f x]: [f] is the binary64 number of value [x], a
    non-negative real, in normal form. *)
Definition represents (f : spec_float) (x : Q) : Prop :=
  (x == 0 /\ f = S754_zero false)
  \/ (exists m e,
         f = S754_finite false m e
         /\ (2 ^ 52 <= Zpos m < 2 ^ 53)%Z
         /\ inject_Z (Zpos m) * 2 ^ e == x).

End ieee754.

(** Whether the two models compute the same value. *)
Definition models_agree (arch : Arch) (s : WordScorer) (wordCount : Z) : bool :=
  match ieee754.value (ieee754.interpolate s wordCount) with
  | Some v => Qeq_bool v (calculatedScore arch s wordCount)
  | None => false
  end.

(* ===================================================================== *)
(** * API structures and handler *)
(* ===================================================================== *)

(** JSON documents, as the request body is seen after lexing and as the
    response body is seen before printing. *)
#[warnings="-register-all"] Inductive json :=
| JNull
| JBool (b : bool)
| JNumber (n : Z)
| JString (s : string)
| JArray (elements : list json)
| JObject (members : list (string * json)).

Record ScoreRequest := { TextToScore : string }.

Record ScoreResponse := {
  OriginalText : string;
  WordCount : Z;
  Score : Z;
  Message : string
}.

Module encoding_json.

Definition kind (v : json) : string :=
  match v with
  | JNull => "null"
  | JBool _ => "bool"
  | JNumber _ => "number"
  | JString _ => "string"
  | JArray _ => "array"
  | JObject _ => "object"
  end.

Definition lower (c : ascii) : ascii :=
  let n := N_of_ascii c in
  if ((65 <=? n) && (n <=? 90))%N then ascii_of_N (n + 32) else c.

Fixpoint fold (s : string) : string :=
  match s with
  | EmptyString => EmptyString
  | String c s' => String (lower c) (fold s')
  end.

(** A member addresses the field tagged [documentText] when its key is
    that name up to letter case. *)
Definition names_documentText (key : string) : bool :=
  String.eqb (fold key) "documenttext".

(** The members of an object are stored in order: a string sets the
    field, [null] leaves it alone, any other value is a type error (the
    first one is kept and decoding goes on); other keys are ignored. *)
Fixpoint decode_members (ms : list (string * json)) (req : ScoreRequest)
         (err : option string) : ScoreRequest * option string :=
  match ms with
  | [] => (req, err)
  | (key, v) :: rest =>
      if names_documentText key then
        match v with
        | JString s => decode_members rest {| TextToScore := s |} err
        | JNull => decode_members rest req err
        | _ =>
            decode_members rest req
              match err with
              | Some e => Some e
              | None =>
                  Some ("json: cannot unmarshal " ++ kind v ++
                        " into Go struct field ScoreRequest.documentText of type string")%string
              end
        end
      else decode_members rest req err
  end.

(** Decoding a document into a [ScoreRequest]. *)
Definition Decode (v : json) (req : ScoreRequest) : ScoreRequest * option string :=
  match v with
  | JObject ms => decode_members ms req None
  | JNull => (req, None)
  | _ =>
      (req, Some ("json: cannot unmarshal " ++ kind v ++
                  " into Go value of type main.ScoreRequest")%string)
  end.

(** The text of a request body as a [Decoder] goes through it.  [Decode]
    reads one JSON value from the start of the text, white space before
    it skipped, and stops where that value ends.  Either no value can be
    read there (the text is empty, breaks off, or has a syntax error
    before the first value ends) and [Decode] returns its complaint, or
    the text starts with a value [v], and [rest], the text after it, is
    not looked at. *)
Inductive Text :=
| NoValue (complaint : string)
| Value (v : json) (rest : string).

(** White space between the tokens of JSON: space, tab, line feed and
    carriage return. *)
Definition isSpace (c : ascii) : bool :=
  let n := N_of_ascii c in
  ((n =? 32) || (n =? 9) || (n =? 13) || (n =? 10))%N.

(** [json.Valid]: the whole text is one JSON value, with nothing but
    white space after it. *)
Definition Valid (t : Text) : bool :=
  match t with
  | NoValue _ => false
  | Value _ rest => forallb isSpace (list_ascii_of_string rest)
  end.

Definition omitempty (name value : string) : list (string * json) :=
  if String.eqb value "" then [] else [(name, JString value)].

(** Encoding of a [ScoreResponse], following its field tags:
    [originalText] and [message] carry [omitempty], [wordCount] and
    [score] do not. *)
Definition Marshal (r : ScoreResponse) : json :=
  JObject (omitempty "originalText" (OriginalText r)
           ++ [("wordCount", JNumber (WordCount r)); ("score", JNumber (Score r))]
           ++ omitempty "message" (Message r)).

End encoding_json.

Module http.
Definition StatusOK : Z := 200.
Definition StatusBadRequest : Z := 400.
Definition StatusInternalServerError : Z := 500.
End http.

Module gin.

(** The body of a request as [ShouldBindJSON] meets it.  The binding
    hands the body to a [Decoder] of [encoding/json] and calls [Decode]
    once, so that it sees the first JSON value of the text and nothing
    after it: [Malformed] is a body at whose start no JSON value can be
    read, with the decoder's complaint, and [Document v] is a body that
    starts with the value [v], whatever follows. *)
Inductive Body :=
| Malformed (complaint : string)
| Document (v : json).

(** What the decoder makes of the text of a body: the text after the
    first value is dropped unread. *)
Definition read (t : encoding_json.Text) : Body :=
  match t with
  | encoding_json.NoValue complaint => Malformed complaint
  | encoding_json.Value v _ => Document v
  end.

(** What the handler has written on the connection. *)
Record Reply := { status : Z; body : json }.

Definition JSON (code : Z) (obj : ScoreResponse) : Reply :=
  {| status := code; body := encoding_json.Marshal obj |}.

(** The tag [binding:"required"]: the field must not hold its zero value. *)
Definition validate (req : ScoreRequest) : option string :=
  if String.eqb (TextToScore req) "" then
    Some "Key: 'ScoreRequest.TextToScore' Error:Field validation for 'TextToScore' failed on the 'required' tag"%string
  else None.

(** [ShouldBindJSON]: decode the first value of the body into the
    struct, then validate the struct. *)
Definition ShouldBindJSON (b : Body) (req : ScoreRequest)
  : ScoreRequest * option string :=
  match b with
  | Malformed complaint => (req, Some complaint)
  | Document v =>
      match encoding_json.Decode v req with
      | (req', Some e) => (req', Some e)
      | (req', None) => (req', validate req')
      end
  end.

End gin.

Record ScoreHandler := { scorer : option WordScorer }.

Definition NewScoreHandler (scorer : option WordScorer) : ScoreHandler :=
  {| scorer := scorer |}.

Definition PostScore (arch : Arch) (h : ScoreHandler) (c : gin.Body) (l : log.Logger)
  : gin.Reply * log.Logger :=
  match gin.ShouldBindJSON c {| TextToScore := "" |} with
  | (_, Some err) =>
      (gin.JSON http.StatusBadRequest
         {| OriginalText := ""; WordCount := 0; Score := 0;
            Message := "Invalid request body: " ++ err |}, l)
  | (requestBody, None) =>
      match scorer h with
      | None =>
          (gin.JSON http.StatusInternalServerError
             {| OriginalText := ""; WordCount := 0; Score := 0;
                Message := "Server configuration error: scorer not available." |},
           log.Println "Error: Scorer not initialized in handler!" l)
      | Some s =>
          let text := TextToScore requestBody in
          let wordCount := CountWords s text in
          let score := CalculateScore arch s text in
          (gin.JSON http.StatusOK
             {| OriginalText := ""; WordCount := wordCount; Score := score;
                Message := "Scoring successful" |}, l)
      end
  end.

(** The configuration fixed in [main]. *)
Definition scorerConfig : WordScorerConfig :=
  {| MinScore := 20; MaxScore := 40; ThresholdWordsForMaxScore := 50 |}.


(** A standard logger whose writes succeed, with nothing written yet. *)
Definition stderr : log.Logger := {| log.write_error := None; log.lines := [] |}.

(* ===================================================================== *)
(** * The scorer in memory *)
(* ===================================================================== *)

(** [CountWords] and [CalculateScore] are methods on a pointer, and
    [NewWordScorer] returns one and writes to the standard logger.  This
    module gives the three functions once more, with what a call can
    read, write and break made explicit: a call runs in a [World] (the
    scorers allocated so far and the standard logger) and either returns
    or ends in a run-time panic, leaving a world behind.  Every
    [s.config] of the source is a read through the pointer.  The
    arithmetic is the one of [calculatedScore] and [finalScore]:
    conversions between [int] and [float64], the operations of
    [float64] and [math.Round] return on every operand and touch no
    memory. *)
Module memory.

(** A [*WordScorer]: [nil], or the address of a scorer. *)
Definition pointer := option nat.

Definition nil : pointer := None.

Record World := { scorers : list WordScorer; std : log.Logger }.

Inductive Outcome (A : Type) : Type :=
| Returns (a : A)
| Panics (reason : string).

Arguments Returns {A} a.
Arguments Panics {A} reason.

Definition M (A : Type) : Type := World -> Outcome A * World.

Definition ret {A : Type} (a : A) : M A := fun w => (Returns a, w).

Definition bind {A B : Type} (m : M A) (k : A -> M B) : M B :=
  fun w =>
    match m w with
    | (Returns a, w') => k a w'
    | (Panics reason, w') => (Panics reason, w')
    end.

Notation "x <- m ;; k" := (bind m (fun x => k))
  (at level 61, m at next level, right associativity).

(** Reading through a pointer.  An address that holds no scorer does not
    occur in Go, whose pointers come from allocations and stay valid; it
    is given the outcome of [nil]. *)
Definition deref (s : pointer) : M WordScorer :=
  fun w =>
    match s with
    | Some a =>
        match nth_error (scorers w) a with
        | Some sc => (Returns sc, w)
        | None => (Panics "runtime error: invalid memory address or nil pointer dereference", w)
        end
    | None => (Panics "runtime error: invalid memory address or nil pointer dereference", w)
    end.

(** [s.config.f] *)
Definition get (f : WordScorerConfig -> Z) (s : pointer) : M Z :=
  sc <- deref s ;; ret (f (config sc)).

(** [&WordScorer{...}] *)
Definition new (sc : WordScorer) : M pointer :=
  fun w =>
    (Returns (Some (List.length (scorers w))),
     {| scorers := scorers w ++ [sc]; std := std w |}).

Definition Output (calldepth : Z) (s : string) : M (option log.error) :=
  fun w =>
    let (err, l) := log.Output calldepth s (std w) in
    (Returns err, {| scorers := scorers w; std := l |}).

Definition NewWordScorer (config : WordScorerConfig) : M (pointer * option log.error) :=
  if MinScore config <? 0 then
    err <- Output 1 "MinScore cannot be negative" ;; ret (nil, err)
  else if MaxScore config <? MinScore config then
    err <- Output 1 "MaxScore cannot be less than MinScore" ;; ret (nil, err)
  else if ThresholdWordsForMaxScore config <=? 0 then
    err <- Output 1 "ThresholdWordsForMaxScore must be positive" ;; ret (nil, err)
  else
    s <- new {| config := config |} ;; ret (s, None).

(** The receiver is not read. *)
Definition CountWords (s : pointer) (text : string) : M Z :=
  ret (len (strings.Fields text)).

Definition CalculateScore (arch : Arch) (s : pointer) (text : string) : M Z :=
  wordCount <- CountWords s text ;;
  if wordCount =? 0 then get MinScore s
  else
    threshold <- get ThresholdWordsForMaxScore s ;;
    if wordCount >=? threshold then get MaxScore s
    else
      maxScore <- get MaxScore s ;;
      minScore <- get MinScore s ;;
      let scoreRange := float64.of_int (goint.sub maxScore minScore) in
      threshold <- get ThresholdWordsForMaxScore s ;;
      let progress := float64.div (float64.of_int wordCount) (float64.of_int threshold) in
      minScore <- get MinScore s ;;
      let calculatedScore := add_mul arch (float64.of_int minScore) progress scoreRange in
      let finalScore := int_of_float64 arch (math.Round calculatedScore) in
      minScore <- get MinScore s ;;
      if finalScore <? minScore then get MinScore s
      else
        maxScore <- get MaxScore s ;;
        if finalScore >? maxScore then get MaxScore s
        else ret finalScore.

(** A world with no scorer yet and a standard logger that works. *)
Definition boot : World := {| scorers := []; std := stderr |}.

(** A later world: the program allocates scorers and never frees or
    overwrites one, so the scorers of a world are still there, at the
    same addresses, in every world that comes after it; the logger may
    have changed. *)
Definition extends (w w' : World) : Prop :=
  exists more, scorers w' = scorers w ++ more.

End memory.

(* ===================================================================== *)
(** * The specification's notions *)
(* ===================================================================== *)

Module spec.

(** The three invariants of a configuration. *)
Definition valid (c : WordScorerConfig) : bool :=
  (0 <=? MinScore c) && (MinScore c <=? MaxScore c)
  && (0 <? ThresholdWordsForMaxScore c).

(** Splitting a text on maximal runs of white space.  [in_run] tells
    whether the previous character was white space; the tokens are what
    lies between the runs, so a text that starts or ends with white
    space has an empty first or last token. *)
Fixpoint split (sp : rune -> bool) (in_run : bool) (rs : list rune)
  : list (list rune) :=
  match rs with
  | [] => [[]]
  | r :: rest =>
      if sp r then
        if in_run then split sp true rest else [] :: split sp true rest
      else
        match split sp false rest with
        | tok :: toks => (r :: tok) :: toks
        | [] => [[r]]
        end
  end.

Definition nonempty {A} (l : list A) : bool :=
  match l with [] => false | _ :: _ => true end.

(** The number of non-empty tokens of a text. *)
Definition countWords (text : string) : Z :=
  len (filter nonempty
         (split unicode.IsSpace false (map fst (utf8.range text)))).

(** A text made of white space only. *)
Definition blank (text : string) : bool :=
  forallb (fun r => unicode.IsSpace (fst r)) (utf8.range text).

Local Open Scope Q_scope.

(** [raw = minScore + progress * (maxScore - minScore)] with
    [progress = wordCount / threshold], over the rationals. *)
Definition raw (c : WordScorerConfig) (wordCount : Z) : Q :=
  inject_Z (MinScore c)
  + (inject_Z wordCount / inject_Z (ThresholdWordsForMaxScore c))
    * inject_Z (MaxScore c - MinScore c).

(** Nearest integer, ties away from zero. *)
Definition round (x : Q) : Z :=
  if Qle_bool 0 x then Qfloor (x + (1 # 2)) else Qceiling (x - (1 # 2)).

(** A value half-way between two integers. *)
Definition tie (x : Q) : bool :=
  Qeq_bool (x - inject_Z (Qfloor x)) (1 # 2).

End spec.

Definition mkScorer (mn mx th : Z) : WordScorer :=
  {| config := {| MinScore := mn; MaxScore := mx; ThresholdWordsForMaxScore := th |} |}.


(** The scorer built in [main]. *)
Definition appScorer : WordScorer := {| config := scorerConfig |}.

(** A text of [n] words. *)
Fixpoint words (n : nat) : string :=
  match n with
  | O => ""
  | S k => "w " ++ words k
  end.

(* ===================================================================== *)
(** * Counting words *)
(* ===================================================================== *)

Section FieldsFacts.

Variable f : rune -> bool.

Lemma split_cons (b : bool) (rs : list rune) :
  exists tok toks, spec.split f b rs = tok :: toks.
Proof.
  revert b; induction rs as [|r rest IH]; intros b; simpl.
  - eauto.
  - destruct (f r).
    + destruct b; [apply IH | eauto].
    + destruct (IH false) as (tok & toks & ->); eauto.
Qed.

(** The scanner and the splitting agree on the number of fields: between
    fields whatever the state of the run, and inside a field counting
    the field being read for one. *)
Lemma FieldsFunc_loop_length (rs : list (rune * string)) :
  (forall b,
      List.length (strings.FieldsFunc_loop f None rs)
      = List.length (filter spec.nonempty (spec.split f b (map fst rs))))
  /\ (forall fld,
      List.length (strings.FieldsFunc_loop f (Some fld) rs)
      = S (List.length (filter spec.nonempty (tl (spec.split f false (map fst rs)))))).
Proof.
  induction rs as [|[r bytes] rest [IHnone IHsome]]; simpl.
  - split; [intros b | intros fld]; reflexivity.
  - destruct (f r) eqn:Hr.
    + split.
      * intros b. rewrite (IHnone true). destruct b; reflexivity.
      * intros fld. simpl. now rewrite (IHnone true).
    + destruct (split_cons false (map fst rest)) as (tok & toks & Hs).
      rewrite Hs in *. simpl in *. split.
      * intros _. now rewrite IHsome.
      * intros fld. now rewrite IHsome.
Qed.

Lemma FieldsFunc_loop_blank (rs : list (rune * string)) :
  forallb (fun r => f (fst r)) rs = true ->
  strings.FieldsFunc_loop f None rs = [].
Proof.
  induction rs as [|[r bytes] rest IH]; simpl; [reflexivity|].
  intros H. apply andb_prop in H as [Hr Hrest].
  rewrite Hr. now apply IH.
Qed.

End FieldsFacts.

(** C7. [CountWords] returns the number of non-empty tokens obtained by
    splitting the text on maximal runs of white space; it is a function of
    the text alone.  The empty text has no word and ["a b  c"] has three. *)
Theorem CountWords_counts_tokens :
  (forall s text, CountWords s text = spec.countWords text)
  /\ (forall s, CountWords s "" = 0)
  /\ (forall s, CountWords s "a b  c" = 3).
Proof.
  split; [|split; intros; reflexivity].
  intros s text. unfold CountWords, spec.countWords, len, strings.Fields, strings.FieldsFunc.
  f_equal. apply FieldsFunc_loop_length.
Qed.

Lemma CountWords_blank (s : WordScorer) (text : string) :
  spec.blank text = true -> CountWords s text = 0.
Proof.
  intros H. unfold CountWords, strings.Fields, strings.FieldsFunc.
  now rewrite FieldsFunc_loop_blank.
Qed.

Lemma CountWords_nonneg (s : WordScorer) (text : string) : 0 <= CountWords s text.
Proof. unfold CountWords, len. lia. Qed.

(* ===================================================================== *)
(** * Construction *)
(* ===================================================================== *)

(** A configuration that satisfies the invariants yields a scorer and a
    nil error, and nothing is logged. *)
Lemma NewWordScorer_valid (c : WordScorerConfig) (l : log.Logger) :
  spec.valid c = true ->
  NewWordScorer c l = ((Some {| config := c |}, None), l).
Proof.
  unfold spec.valid, NewWordScorer. intros H.
  apply andb_prop in H as [H Ht]. apply andb_prop in H as [Hmin Hmax].
  replace (MinScore c <? 0) with false by lia.
  replace (MaxScore c <? MinScore c) with false by lia.
  replace (ThresholdWordsForMaxScore c <=? 0) with false by lia.
  reflexivity.
Qed.

(** A configuration that breaks an invariant yields no scorer; the error
    returned is the one of the write to the logger. *)
Lemma NewWordScorer_invalid (c : WordScorerConfig) (l : log.Logger) :
  spec.valid c = false ->
  fst (NewWordScorer c l) = (None, log.write_error l).
Proof.
  unfold spec.valid, NewWordScorer, log.Output. intros H.
  destruct (MinScore c <? 0) eqn:H1;
    [|destruct (MaxScore c <? MinScore c) eqn:H2;
      [|destruct (ThresholdWordsForMaxScore c <=? 0) eqn:H3]];
    try (destruct (log.write_error l); reflexivity).
  exfalso. revert H.
  replace (0 <=? MinScore c) with true by lia.
  replace (MinScore c <=? MaxScore c) with true by lia.
  replace (0 <? ThresholdWordsForMaxScore c) with true by lia.
  discriminate.
Qed.

(** C1. With a negative [MinScore] and a standard logger whose writes
    succeed, [NewWordScorer] logs its message and returns a nil scorer
    together with a nil error: the error is the result of [log.Output]. *)
Theorem NewWordScorer_negative_MinScore_nil_error :
  NewWordScorer {| MinScore := -1; MaxScore := 40; ThresholdWordsForMaxScore := 50 |} stderr
  = ((None, None),
     {| log.write_error := None; log.lines := ["MinScore cannot be negative"] |}).
Proof. reflexivity. Qed.

(* ===================================================================== *)
(** * Scores that need no arithmetic *)
(* ===================================================================== *)

Lemma score_range (arch : Arch) (s : WordScorer) (text : string) :
  spec.valid (config s) = true ->
  MinScore (config s) <= CalculateScore arch s text <= MaxScore (config s).
Proof.
  unfold spec.valid, CalculateScore. intros H.
  apply andb_prop in H as [H Ht]. apply andb_prop in H as [Hmin Hmax].
  destruct (CountWords s text =? 0); [lia|].
  destruct (CountWords s text >=? ThresholdWordsForMaxScore (config s)); [lia|].
  destruct (finalScore arch s (CountWords s text) <? MinScore (config s)) eqn:Hlo; [lia|].
  destruct (finalScore arch s (CountWords s text) >? MaxScore (config s)) eqn:Hhi; lia.
Qed.

(** C3. For a valid configuration the score of every text lies between
    [MinScore] and [MaxScore]. *)
Theorem CalculateScore_within_bounds (arch : Arch) (s : WordScorer) (text : string) :
  spec.valid (config s) = true ->
  MinScore (config s) <= CalculateScore arch s text <= MaxScore (config s).
Proof. apply score_range. Qed.

Lemma CalculateScore_within_bounds_witness :
  spec.valid (config appScorer) = true
  /\ MinScore (config appScorer) <= CalculateScore amd64 appScorer "hello world"
     <= MaxScore (config appScorer).
Proof.
  split; [reflexivity|].
  apply (CalculateScore_within_bounds amd64 appScorer "hello world"). reflexivity.
Defined.

(** C5. For a valid configuration a text with at least [threshold] words
    scores [MaxScore]; with the configuration of [main] every text of 60
    words scores 40. *)
Theorem CalculateScore_saturates :
  (forall arch s text,
      spec.valid (config s) = true ->
      ThresholdWordsForMaxScore (config s) <= CountWords s text ->
      CalculateScore arch s text = MaxScore (config s))
  /\ (forall arch text,
      CountWords appScorer text = 60 ->
      CalculateScore arch appScorer text = 40).
Proof.
  assert (G : forall arch s text,
             spec.valid (config s) = true ->
             ThresholdWordsForMaxScore (config s) <= CountWords s text ->
             CalculateScore arch s text = MaxScore (config s)).
  { intros arch s text H Hw. unfold spec.valid in H. unfold CalculateScore.
    apply andb_prop in H as [H Ht]. apply andb_prop in H as [Hmin Hmax].
    replace (CountWords s text =? 0) with false by lia.
    replace (CountWords s text >=? ThresholdWordsForMaxScore (config s)) with true by lia.
    reflexivity. }
  split; [exact G|].
  intros arch text Hw. apply (G arch appScorer text); [reflexivity|].
  rewrite Hw. simpl. lia.
Qed.

Lemma CalculateScore_saturates_witness :
  (spec.valid (config appScorer) = true
   /\ ThresholdWordsForMaxScore (config appScorer) <= CountWords appScorer (words 60)
   /\ CalculateScore arm64 appScorer (words 60) = MaxScore (config appScorer))
  /\ (CountWords appScorer (words 60) = 60
      /\ CalculateScore amd64 appScorer (words 60) = 40).
Proof.
  split.
  - split; [reflexivity|]. split; [vm_compute; discriminate|].
    apply (proj1 CalculateScore_saturates arm64 appScorer (words 60));
      [reflexivity | vm_compute; discriminate].
  - split; [reflexivity|].
    apply (proj2 CalculateScore_saturates amd64 (words 60)). reflexivity.
Defined.

(** C6. For a valid configuration a text without words scores
    [MinScore]; the empty text and the texts made of white space only
    have no word; with the configuration of [main] the empty text
    scores 20. *)
Theorem CalculateScore_no_words :
  (forall arch s text,
      spec.valid (config s) = true ->
      CountWords s text = 0 ->
      CalculateScore arch s text = MinScore (config s))
  /\ (forall arch s text,
      spec.valid (config s) = true ->
      spec.blank text = true ->
      CountWords s text = 0 /\ CalculateScore arch s text = MinScore (config s))
  /\ (forall arch, CalculateScore arch appScorer "" = 20).
Proof.
  assert (G : forall arch s text,
             CountWords s text = 0 -> CalculateScore arch s text = MinScore (config s)).
  { intros arch s text Hw. unfold CalculateScore. now rewrite Hw. }
  split; [intros; now apply G|]. split.
  - intros arch s text _ Hb. pose proof (CountWords_blank s text Hb) as Hw.
    split; [exact Hw | now apply G].
  - intros arch. reflexivity.
Qed.

Lemma CalculateScore_no_words_witness :
  (spec.valid (config appScorer) = true
   /\ CountWords appScorer "" = 0
   /\ CalculateScore amd64 appScorer "" = MinScore (config appScorer))
  /\ (spec.blank "  " = true
      /\ CountWords appScorer "  " = 0
      /\ CalculateScore arm64 appScorer "  " = MinScore (config appScorer)).
Proof.
  split.
  - split; [reflexivity|]. split; [reflexivity|].
    apply (proj1 CalculateScore_no_words amd64 appScorer ""); reflexivity.
  - split; [reflexivity|].
    apply (proj1 (proj2 CalculateScore_no_words) arm64 appScorer "  "); reflexivity.
Defined.

(** ** The scorer in memory *)

Section Memory.

Variable arch : Arch.

Lemma deref_scorer (w : memory.World) (a : nat) (sc : WordScorer) :
  nth_error (memory.scorers w) a = Some sc -> memory.deref (Some a) w = (memory.Returns sc, w).
Proof. intros H. unfold memory.deref. now rewrite H. Qed.

Lemma get_scorer (f : WordScorerConfig -> Z) (w : memory.World) (a : nat) (sc : WordScorer) :
  nth_error (memory.scorers w) a = Some sc -> memory.get f (Some a) w = (memory.Returns (f (config sc)), w).
Proof. intros H. unfold memory.get, memory.bind. now rewrite (deref_scorer w a sc H). Qed.

(** On a pointer to a scorer the method returns what [CalculateScore]
    says of that scorer, and the world is as before. *)
Lemma CalculateScore_runs (w : memory.World) (a : nat) (sc : WordScorer) (text : string) :
  nth_error (memory.scorers w) a = Some sc ->
  memory.CalculateScore arch (Some a) text w = (memory.Returns (CalculateScore arch sc text), w).
Proof.
  intros H. unfold memory.CalculateScore, CalculateScore, memory.CountWords, CountWords.
  unfold memory.bind at 1. unfold memory.ret at 1.
  destruct (len (strings.Fields text) =? 0); [apply (get_scorer _ _ _ _ H)|].
  unfold memory.bind at 1. rewrite (get_scorer _ _ _ _ H).
  destruct (len (strings.Fields text) >=? ThresholdWordsForMaxScore (config sc));
    [apply (get_scorer _ _ _ _ H)|].
  repeat (unfold memory.bind at 1; rewrite (get_scorer _ _ _ _ H)).
  unfold finalScore, calculatedScore.
  destruct (_ <? MinScore (config sc)); [apply (get_scorer _ _ _ _ H)|].
  unfold memory.bind at 1. rewrite (get_scorer _ _ _ _ H).
  destruct (_ >? MaxScore (config sc)); [apply (get_scorer _ _ _ _ H) | reflexivity].
Qed.

(** On [nil] it panics, whatever the text: every path reads the
    configuration. *)
Lemma CalculateScore_nil_panics (w : memory.World) (text : string) :
  memory.CalculateScore arch memory.nil text w
  = (memory.Panics "runtime error: invalid memory address or nil pointer dereference", w).
Proof.
  unfold memory.CalculateScore, memory.CountWords, memory.bind, memory.ret.
  destruct (len (strings.Fields text) =? 0); reflexivity.
Qed.

(** [memory.NewWordScorer] is [NewWordScorer] on the standard logger;
    the pointer it returns is the next free address, and the scorers
    already there stay. *)
Lemma NewWordScorer_runs (c : WordScorerConfig) (w : memory.World) :
  memory.NewWordScorer c w
  = match NewWordScorer c (memory.std w) with
    | ((Some sc, err), l) =>
        (memory.Returns (Some (List.length (memory.scorers w)), err),
         {| memory.scorers := memory.scorers w ++ [sc]; memory.std := l |})
    | ((None, err), l) => (memory.Returns (memory.nil, err), {| memory.scorers := memory.scorers w; memory.std := l |})
    end.
Proof.
  unfold memory.NewWordScorer, NewWordScorer.
  destruct (MinScore c <? 0);
    [|destruct (MaxScore c <? MinScore c);
      [|destruct (ThresholdWordsForMaxScore c <=? 0)]];
    unfold memory.bind, memory.Output, memory.new, memory.ret;
    try (destruct (log.Output _ _ (memory.std w)) as [e l]; reflexivity).
  destruct w; reflexivity.
Qed.

Lemma NewWordScorer_constructs (c : WordScorerConfig) (w0 w1 : memory.World) (s : memory.pointer)
      (err : option log.error) :
  memory.NewWordScorer c w0 = (memory.Returns (s, err), w1) ->
  s <> memory.nil ->
  exists a, s = Some a
            /\ nth_error (memory.scorers w1) a = Some {| config := c |}
            /\ err = None /\ spec.valid c = true /\ memory.std w1 = memory.std w0
            /\ memory.extends w0 w1.
Proof.
  rewrite NewWordScorer_runs. intros H Hs.
  destruct (spec.valid c) eqn:V.
  - rewrite (NewWordScorer_valid c (memory.std w0) V) in H. inversion H; subst; clear H.
    exists (List.length (memory.scorers w0)). cbn [memory.scorers memory.std].
    split; [reflexivity|]. split.
    + rewrite nth_error_app2 by lia. now rewrite Nat.sub_diag.
    + repeat split. now exists [{| config := c |}].
  - pose proof (NewWordScorer_invalid c (memory.std w0) V) as E.
    destruct (NewWordScorer c (memory.std w0)) as [[sc e] l]. cbn [fst] in E.
    inversion E; subst. inversion H; subst. now contradiction Hs.
Qed.

Lemma extends_scorer (w w' : memory.World) (a : nat) (sc : WordScorer) :
  memory.extends w w' -> nth_error (memory.scorers w) a = Some sc -> nth_error (memory.scorers w') a = Some sc.
Proof.
  intros [more E] H. rewrite E. rewrite nth_error_app1; [assumption|].
  apply nth_error_Some. congruence.
Qed.

End Memory.

(** C9.  Let [s] be a scorer that [NewWordScorer] has returned, and take
    any world after its construction.  A call of [CalculateScore] on [s]
    returns (it does not panic), returns what the arithmetic of
    [CalculateScore] gives for the configuration [s] was built from, and
    leaves the world, scorers and log, as it found it.  So two calls in a
    row on the same text return the same score, and two texts for which
    [CountWords] returns the same number get the same score. *)
Theorem CalculateScore_deterministic_of_count
        (arch : Arch) (c : WordScorerConfig) (w0 w1 : memory.World)
        (s : memory.pointer) (err : option log.error) :
  memory.NewWordScorer c w0 = (memory.Returns (s, err), w1) ->
  s <> memory.nil ->
  forall w, memory.extends w1 w ->
  (forall text,
      memory.CalculateScore arch s text w
      = (memory.Returns (CalculateScore arch {| config := c |} text), w))
  /\ (forall text,
      exists score,
        memory.bind (memory.CalculateScore arch s text)
          (fun first =>
             memory.bind (memory.CalculateScore arch s text)
               (fun second => memory.ret (first, second))) w
        = (memory.Returns (score, score), w))
  /\ (forall text1 text2,
      fst (memory.CountWords s text1 w) = fst (memory.CountWords s text2 w) ->
      memory.CalculateScore arch s text1 w = memory.CalculateScore arch s text2 w).
Proof.
  intros H Hs w Hw.
  destruct (NewWordScorer_constructs c w0 w1 s err H Hs) as (a & -> & Ha & _).
  pose proof (extends_scorer w1 w a _ Hw Ha) as Hsc.
  split; [|split].
  - intros text. now apply CalculateScore_runs.
  - intros text. exists (CalculateScore arch {| config := c |} text).
    unfold memory.bind. now rewrite !(CalculateScore_runs arch w a _ text Hsc).
  - intros text1 text2 E.
    rewrite !(CalculateScore_runs arch w a _ _ Hsc).
    unfold memory.CountWords, memory.ret in E. cbn [fst] in E.
    assert (E' : len (strings.Fields text1) = len (strings.Fields text2)) by congruence.
    unfold CalculateScore, CountWords. now rewrite E'.
Qed.

Lemma CalculateScore_deterministic_of_count_witness :
  let w1 := {| memory.scorers := [appScorer]; memory.std := stderr |} in
  memory.NewWordScorer scorerConfig memory.boot = (memory.Returns (Some 0%nat, None), w1)
  /\ Some 0%nat <> memory.nil
  /\ memory.extends w1 w1
  /\ memory.CalculateScore amd64 (Some 0%nat) "hello world" w1 = (memory.Returns 21, w1)
  /\ memory.CalculateScore amd64 (Some 0%nat) "hello world" w1
     = memory.CalculateScore amd64 (Some 0%nat) " bonjour   monde " w1.
Proof.
  cbv zeta.
  assert (E : memory.extends {| memory.scorers := [appScorer]; memory.std := stderr |}
                             {| memory.scorers := [appScorer]; memory.std := stderr |})
    by (exists []; reflexivity).
  assert (N : Some 0%nat <> memory.nil) by discriminate.
  split; [reflexivity|]. split; [exact N|]. split; [exact E|]. split.
  - rewrite (proj1 (CalculateScore_deterministic_of_count amd64 scorerConfig memory.boot
                      _ (Some 0%nat) None eq_refl N _ E) "hello world").
    reflexivity.
  - apply (proj2 (proj2 (CalculateScore_deterministic_of_count amd64 scorerConfig
                           memory.boot _ (Some 0%nat) None eq_refl N _ E))).
    reflexivity.
Defined.

(* ===================================================================== *)
(** * Facts on binary64 rounding *)
(* ===================================================================== *)

Module float64_facts.

Import float64.
Local Open Scope Q_scope.

Lemma two_neq_0 : ~ (2 == 0).
Proof. discriminate. Qed.

Lemma pow2_pos (e : Z) : 0 < 2 ^ e.
Proof. apply Qpower_0_lt. reflexivity. Qed.

Lemma pow2_add (a b : Z) : 2 ^ (a + b) == 2 ^ a * 2 ^ b.
Proof. apply Qpower_plus, two_neq_0. Qed.

Lemma pow2_le (a b : Z) : (a <= b)%Z -> 2 ^ a <= 2 ^ b.
Proof. intros H. apply Qpower_le_compat_l; [exact H | discriminate]. Qed.

Lemma pow2_lt (a b : Z) : (a < b)%Z -> 2 ^ a < 2 ^ b.
Proof. intros H. apply Qpower_lt_compat_l; [exact H | reflexivity]. Qed.

Lemma pow2_Z (n : Z) : (0 <= n)%Z -> 2 ^ n == inject_Z (2 ^ n).
Proof. intros H. symmetry. now apply (Zpower_Qpower 2 n). Qed.

Lemma pow2_succ (a : Z) : 2 ^ (a + 1) == 2 * 2 ^ a.
Proof. rewrite pow2_add. change (2 ^ 1) with 2. ring. Qed.

(** Division by a power of two is multiplication by the opposite power. *)
Lemma div_pow2 (x : Q) (e : Z) : x / 2 ^ e == x * 2 ^ (- e).
Proof. unfold Qdiv. now rewrite Qpower_opp. Qed.

Lemma mul_div_pow2 (x : Q) (e : Z) : x / 2 ^ e * 2 ^ e == x.
Proof. field. pose proof (pow2_pos e). lra. Qed.

Lemma ilogb_spec (x : Q) : 0 < x -> 2 ^ ilogb x <= x < 2 ^ (ilogb x + 1).
Proof.
intros Hx. destruct x as [n d]. unfold ilogb. cbn [Qnum Qden].
assert (Hn : (0 < n)%Z) by (unfold Qlt in Hx; simpl in Hx; lia).
set (a := Z.log2 n). set (b := Z.log2 (Zpos d)).
destruct (Z.log2_spec n Hn) as [Ha1 Ha2]. fold a in Ha1, Ha2.
destruct (Z.log2_spec (Zpos d) eq_refl) as [Hb1 Hb2]. fold b in Hb1, Hb2.
assert (Ha0 : (0 <= a)%Z) by apply Z.log2_nonneg.
assert (Hb0 : (0 <= b)%Z) by apply Z.log2_nonneg.
set (D := inject_Z (Zpos d)). set (N := inject_Z n).
assert (HD : 0 < D) by reflexivity.
assert (HxD : (n # d) * D == N).
{ unfold D, N, Qeq, Qmult, inject_Z; simpl. lia. }
assert (HaQ1 : 2 ^ a <= N).
{ rewrite pow2_Z by lia. unfold N. now rewrite <- Zle_Qle. }
assert (HaQ2 : N < 2 ^ (a + 1)).
{ rewrite pow2_Z by lia. unfold N. now rewrite <- Zlt_Qlt. }
assert (HbQ1 : 2 ^ b <= D).
{ rewrite pow2_Z by lia. unfold D. now rewrite <- Zle_Qle. }
assert (HbQ2 : D < 2 ^ (b + 1)).
{ rewrite pow2_Z by lia. unfold D. now rewrite <- Zlt_Qlt. }
assert (Hlo : 2 ^ (a - b - 1) <= n # d).
{ apply (Qmult_le_r _ _ D HD). rewrite HxD.
  apply Qle_trans with (2 ^ (a - b - 1) * 2 ^ (b + 1)).
  - apply Qmult_le_l; [apply pow2_pos | now apply Qlt_le_weak].
  - rewrite <- pow2_add. now replace (a - b - 1 + (b + 1))%Z with a by lia. }
assert (Hhi : n # d < 2 ^ (a - b + 1)).
{ apply (Qmult_lt_r _ _ D HD). rewrite HxD.
  apply Qlt_le_trans with (2 ^ (a - b + 1) * 2 ^ b).
  - rewrite <- pow2_add. now replace (a - b + 1 + b)%Z with (a + 1)%Z by lia.
  - apply Qmult_le_l; [apply pow2_pos | assumption]. }
destruct (Qle_bool (2 ^ (a - b)) (n # d)) eqn:E.
- apply Qle_bool_iff in E. now split.
- replace (a - b - 1 + 1)%Z with (a - b)%Z by lia. split; [assumption|].
  apply Qnot_le_lt. intros H. apply Qle_bool_iff in H. congruence.
Qed.

Lemma ilogb_unique (x : Q) (k : Z) : 2 ^ k <= x < 2 ^ (k + 1) -> ilogb x = k.
Proof.
intros [H1 H2].
assert (Hx : 0 < x) by (eapply Qlt_le_trans; [apply (pow2_pos k) | exact H1]).
destruct (ilogb_spec x Hx) as [S1 S2].
destruct (Z.lt_trichotomy (ilogb x) k) as [L | [E | G]]; [exfalso | exact E | exfalso].
- assert (2 ^ (ilogb x + 1) <= 2 ^ k) by (apply pow2_le; lia). lra.
- assert (2 ^ (k + 1) <= 2 ^ ilogb x) by (apply pow2_le; lia). lra.
Qed.

Lemma ilogb_eq (x y : Q) : 0 < x -> x == y -> ilogb x = ilogb y.
Proof.
intros Hx E. symmetry. apply ilogb_unique. rewrite <- E. now apply ilogb_spec.
Qed.

(** ** Rounding to an integer *)

Lemma rne_cases (x : Q) :
let f := Qfloor x in
(x - inject_Z f < 1 # 2 /\ rne x = f)
\/ (1 # 2 < x - inject_Z f /\ rne x = (f + 1)%Z)
\/ (x - inject_Z f == 1 # 2 /\ (rne x = f \/ rne x = (f + 1)%Z) /\ Z.even (rne x) = true).
Proof.
intros f. unfold rne. fold f.
destruct (Qcompare_spec (x - inject_Z f) (1 # 2)) as [E | L | G].
- right; right. split; [exact E|].
  destruct (Z.even f) eqn:Ev; split; auto.
  rewrite Z.even_add, Ev. reflexivity.
- left. now split.
- right; left. now split.
Qed.

Lemma floor_bounds (x : Q) : inject_Z (Qfloor x) <= x < inject_Z (Qfloor x) + 1.
Proof.
split; [apply Qfloor_le|].
pose proof (Qlt_floor x) as H. now rewrite inject_Z_plus in H.
Qed.

Lemma rne_bounds (x : Q) :
inject_Z (rne x) - (1 # 2) <= x <= inject_Z (rne x) + (1 # 2).
Proof.
pose proof (floor_bounds x) as [F1 F2].
destruct (rne_cases x) as [[H ->] | [[H ->] | [H [[-> | ->] _]]]];
  rewrite ?inject_Z_plus; change (inject_Z 1) with 1; lra.
Qed.

Lemma rne_Z (n : Z) : rne (inject_Z n) = n.
Proof.
pose proof (rne_cases (inject_Z n)) as H. cbv zeta in H.
rewrite Qfloor_Z in H.
destruct H as [[H E] | [[H E] | [H _]]]; [exact E | lra | lra].
Qed.

#[export] Instance rne_comp : Proper (Qeq ==> eq) rne.
Proof.
intros x y E. unfold rne.
rewrite (Qfloor_comp _ _ E).
assert (C : (x - inject_Z (Qfloor y) ?= 1 # 2) = (y - inject_Z (Qfloor y) ?= 1 # 2))
  by now rewrite E.
now rewrite C.
Qed.

Lemma rne_mono (x y : Q) : x <= y -> (rne x <= rne y)%Z.
Proof.
intros L.
pose proof (Qfloor_resp_le _ _ L) as Fl.
pose proof (floor_bounds x) as [X1 X2]. pose proof (floor_bounds y) as [Y1 Y2].
destruct (Z.eq_dec (Qfloor x) (Qfloor y)) as [E | N].
- destruct (rne_cases x) as [[Hx Rx] | [[Hx Rx] | [Hx [Rx Ex]]]];
    destruct (rne_cases y) as [[Hy Ry] | [[Hy Ry] | [Hy [Ry Ey]]]];
    rewrite <- ?E in *; try lia; try lra.
  destruct Rx as [Rx | Rx], Ry as [Ry | Ry]; try lia.
  (* both are ties on the same floor: the even neighbour is the same *)
  rewrite Rx in Ex. rewrite Ry in Ey.
  rewrite Z.even_add in Ex. destruct (Z.even (Qfloor x)); discriminate.
- assert (rne x <= Qfloor x + 1)%Z
    by (destruct (rne_cases x) as [[_ ->] | [[_ ->] | [_ [[-> | ->] _]]]]; lia).
  assert (Qfloor y <= rne y)%Z
    by (destruct (rne_cases y) as [[_ ->] | [[_ ->] | [_ [[-> | ->] _]]]]; lia).
  lia.
Qed.

(** ** Rounding to binary64 *)

Lemma RN_zero (x : Q) : x == 0 -> RN x = 0.
Proof. intros E. unfold RN. apply Qeq_bool_iff in E. now rewrite E. Qed.

Lemma RN_pos (x : Q) :
0 < x ->
RN x = inject_Z (rne (x / 2 ^ (ilogb x - 52))) * 2 ^ (ilogb x - 52).
Proof.
intros Hx. unfold RN.
destruct (Qeq_bool x 0) eqn:E; [apply Qeq_bool_iff in E; lra|].
assert (A : ilogb (Qabs x) = ilogb x).
{ symmetry. apply ilogb_eq; [exact Hx|]. symmetry. apply Qabs_pos. lra. }
rewrite A. reflexivity.
Qed.

(** The significand of a positive value lies in [[2^52, 2^53)] before
  rounding and in [[2^52, 2^53]] after. *)
Lemma scaled_bounds (x : Q) :
0 < x ->
2 ^ 52 <= x / 2 ^ (ilogb x - 52) < 2 ^ 53.
Proof.
intros Hx. destruct (ilogb_spec x Hx) as [S1 S2].
set (k := ilogb x) in *. pose proof (pow2_pos (k - 52)) as P.
split.
- apply Qle_shift_div_l; [exact P|]. rewrite <- pow2_add.
  now replace (52 + (k - 52))%Z with k by lia.
- apply Qlt_shift_div_r; [exact P|]. rewrite <- pow2_add.
  now replace (53 + (k - 52))%Z with (k + 1)%Z by lia.
Qed.

Lemma significand_bounds (x : Q) :
0 < x ->
(2 ^ 52 <= rne (x / 2 ^ (ilogb x - 52)) <= 2 ^ 53)%Z.
Proof.
intros Hx. destruct (scaled_bounds x Hx) as [S1 S2]. split.
- rewrite <- (rne_Z (2 ^ 52)). apply rne_mono.
  now rewrite <- pow2_Z by lia.
- rewrite <- (rne_Z (2 ^ 53)). apply rne_mono.
  rewrite <- pow2_Z by lia. lra.
Qed.

Lemma RN_pos_bounds (x : Q) :
0 < x -> 2 ^ ilogb x <= RN x <= 2 ^ (ilogb x + 1).
Proof.
intros Hx. rewrite (RN_pos x Hx).
destruct (significand_bounds x Hx) as [M1 M2].
set (k := ilogb x) in *. set (m := rne _) in *.
pose proof (pow2_pos (k - 52)) as P.
rewrite Zle_Qle in M1, M2. rewrite <- pow2_Z in M1, M2 by lia.
split.
- replace k with (52 + (k - 52))%Z at 1 by lia. rewrite pow2_add.
  apply Qmult_le_compat_r; lra.
- replace (k + 1)%Z with (53 + (k - 52))%Z by lia. rewrite pow2_add.
  apply Qmult_le_compat_r; lra.
Qed.

Lemma RN_mono_pos (x y : Q) : 0 < x -> x <= y -> RN x <= RN y.
Proof.
intros Hx L. assert (Hy : 0 < y) by lra.
destruct (ilogb_spec x Hx) as [X1 X2]. destruct (ilogb_spec y Hy) as [Y1 Y2].
destruct (Z.lt_trichotomy (ilogb x) (ilogb y)) as [Lt | [E | Gt]].
- pose proof (RN_pos_bounds x Hx) as [_ B1].
  pose proof (RN_pos_bounds y Hy) as [B2 _].
  assert (2 ^ (ilogb x + 1) <= 2 ^ ilogb y) by (apply pow2_le; lia). lra.
- rewrite (RN_pos x Hx), (RN_pos y Hy), E.
  pose proof (pow2_pos (ilogb y - 52)) as P.
  apply Qmult_le_compat_r; [|lra].
  rewrite <- Zle_Qle. apply rne_mono.
  apply Qmult_le_compat_r; [exact L|]. apply Qlt_le_weak, Qinv_lt_0_compat, P.
- exfalso. assert (2 ^ (ilogb y + 1) <= 2 ^ ilogb x) by (apply pow2_le; lia). lra.
Qed.

Lemma RN_nonneg (x : Q) : 0 <= x -> 0 <= RN x.
Proof.
intros Hx. destruct (Qeq_dec x 0) as [E | N].
- rewrite (RN_zero x E). lra.
- assert (P : 0 < x) by (destruct (Qlt_le_dec 0 x); [assumption|]; exfalso; apply N; lra).
  pose proof (RN_pos_bounds x P) as [B _]. pose proof (pow2_pos (ilogb x)). lra.
Qed.

Lemma RN_mono (x y : Q) : 0 <= x -> x <= y -> RN x <= RN y.
Proof.
intros Hx L. destruct (Qeq_dec x 0) as [E | N].
- rewrite (RN_zero x E). apply RN_nonneg. lra.
- apply RN_mono_pos; [|exact L].
  destruct (Qlt_le_dec 0 x); [assumption|]. exfalso; apply N; lra.
Qed.

#[export] Instance RN_comp : Proper (Qeq ==> Qeq) RN.
Proof.
intros x y E. destruct (Qeq_dec x 0) as [Z0 | N].
- rewrite (RN_zero x Z0), (RN_zero y); [reflexivity | now rewrite <- E].
- unfold RN.
  destruct (Qeq_bool x 0) eqn:Ex; [apply Qeq_bool_iff in Ex; contradiction|].
  destruct (Qeq_bool y 0) eqn:Ey; [apply Qeq_bool_iff in Ey; rewrite <- E in Ey; contradiction|].
  assert (A : ilogb (Qabs x) = ilogb (Qabs y)).
  { apply ilogb_eq; [|now rewrite E].
    pose proof (Qabs_nonneg x). destruct (Qeq_dec (Qabs x) 0) as [Z1 | N1]; [|lra].
    exfalso. apply N. destruct (Qabs_Qle_condition x 0) as [C _]. 
    assert (-0 <= x <= 0) by (apply C; lra). lra. }
  rewrite A. now rewrite E.
Qed.

(** A value whose significand is an integer is not changed. *)
Lemma RN_exact (x : Q) (m : Z) :
0 < x -> x / 2 ^ (ilogb x - 52) == inject_Z m -> RN x == x.
Proof.
intros Hx E. rewrite (RN_pos x Hx), E, rne_Z, <- E. apply mul_div_pow2.
Qed.

Lemma RN_error (x : Q) :
0 < x -> Qabs (RN x - x) <= 2 ^ (ilogb x - 53).
Proof.
intros Hx. rewrite (RN_pos x Hx).
set (e := (ilogb x - 52)%Z). pose proof (pow2_pos e) as P.
pose proof (rne_bounds (x / 2 ^ e)) as [B1 B2].
set (m := inject_Z (rne (x / 2 ^ e))) in *.
assert (X : x == x / 2 ^ e * 2 ^ e) by (symmetry; apply mul_div_pow2).
set (s := x / 2 ^ e) in *.
assert (H53 : 2 ^ (ilogb x - 53) == (1 # 2) * 2 ^ e).
{ replace (ilogb x - 53)%Z with ((-1) + e)%Z by (unfold e; lia).
  rewrite pow2_add. reflexivity. }
rewrite H53. apply Qabs_Qle_condition.
assert (D : m * 2 ^ e - x == (m - s) * 2 ^ e) by (rewrite X at 1; ring).
rewrite D. split.
- setoid_replace (- ((1 # 2) * 2 ^ e)) with ((- (1 # 2)) * 2 ^ e) by ring.
  apply Qmult_le_compat_r; lra.
- apply Qmult_le_compat_r; lra.
Qed.

(** The relative error of one rounding is at most [2^-53]. *)
Lemma RN_relative_error (x : Q) :
0 <= x -> Qabs (RN x - x) <= x * 2 ^ (-53).
Proof.
intros Hx. destruct (Qeq_dec x 0) as [E | N].
- rewrite (RN_zero x E), E. apply Qabs_Qle_condition. lra.
- assert (P : 0 < x) by (destruct (Qlt_le_dec 0 x); [assumption|]; exfalso; apply N; lra).
  eapply Qle_trans; [apply (RN_error x P)|].
  destruct (ilogb_spec x P) as [S1 _].
  replace (ilogb x - 53)%Z with (ilogb x + (-53))%Z by lia. rewrite pow2_add.
  apply Qmult_le_compat_r; [exact S1|]. apply Qlt_le_weak, pow2_pos.
Qed.

(** Integers up to [2^53] are binary64 values. *)
Lemma RN_int (n : Z) : (0 <= n <= 2 ^ 53)%Z -> RN (inject_Z n) == inject_Z n.
Proof.
intros [H0 H53]. destruct (Z.eq_dec n 0) as [-> | N]; [reflexivity|].
assert (Hx : 0 < inject_Z n) by (change 0 with (inject_Z 0); rewrite <- Zlt_Qlt; lia).
destruct (ilogb_spec _ Hx) as [S1 S2]. set (k := ilogb (inject_Z n)) in *.
assert (K0 : (0 <= k)%Z).
{ assert (L : 2 ^ 0 < 2 ^ (k + 1)).
  { eapply Qle_lt_trans; [|exact S2]. change (2 ^ 0) with (inject_Z 1).
    rewrite <- Zle_Qle. lia. }
  apply (Qpower_lt_compat_l_inv 2 0 (k + 1)) in L; [lia | reflexivity]. }
assert (K53 : (k <= 53)%Z).
{ assert (L : 2 ^ k <= 2 ^ 53).
  { eapply Qle_trans; [exact S1|]. rewrite (pow2_Z 53) by lia.
    now rewrite <- Zle_Qle. }
  apply (Qpower_le_compat_l_inv 2 k 53) in L; [lia | reflexivity]. }
destruct (Z.eq_dec k 53) as [E | NE].
- assert (n = 2 ^ 53)%Z.
  { rewrite E, (pow2_Z 53) in S1 by lia. rewrite <- Zle_Qle in S1. lia. }
  subst n. apply (RN_exact _ (2 ^ 52)); [exact Hx|]. fold k. rewrite E. reflexivity.
- apply (RN_exact _ (n * 2 ^ (52 - k))); [exact Hx|]. fold k.
  rewrite div_pow2, inject_Z_mult.
  replace (- (k - 52))%Z with (52 - k)%Z by lia.
  now rewrite (pow2_Z (52 - k)) by lia.
Qed.

Lemma RN_one : RN 1 == 1.
Proof. apply (RN_int 1). lia. Qed.

End float64_facts.

(** ** [math.Round], truncation and conversion to [int] *)

Section Rounding.

Local Open Scope Q_scope.

Lemma Qfloor_unique (x : Q) (n : Z) :
  inject_Z n <= x < inject_Z n + 1 -> Qfloor x = n.
Proof.
  intros [H1 H2].
  pose proof (Qfloor_resp_le _ _ H1) as L. rewrite Qfloor_Z in L.
  pose proof (Qfloor_le x) as F.
  assert (G : inject_Z (Qfloor x) < inject_Z (n + 1)) by (rewrite inject_Z_plus; change (inject_Z 1) with 1; lra).
  rewrite <- Zlt_Qlt in G. lia.
Qed.

Lemma trunc_nonneg (x : Q) : 0 <= x -> float64.trunc x = Qfloor x.
Proof.
  intros H. unfold float64.trunc. apply Qle_bool_iff in H. now rewrite H.
Qed.

(** On non-negative values [math.Round] is [floor (x + 1/2)]. *)
Lemma Round_nonneg (x : Q) :
  0 <= x -> math.Round x = inject_Z (Qfloor (x + (1 # 2))).
Proof.
  intros H. unfold math.Round. rewrite (trunc_nonneg x H).
  pose proof (float64_facts.floor_bounds x) as [F1 F2].
  assert (A : Qabs (x - inject_Z (Qfloor x)) == x - inject_Z (Qfloor x))
    by (apply Qabs_pos; lra).
  pose proof H as Hb. apply Qle_bool_iff in Hb. rewrite Hb.
  destruct (Qle_bool (1 # 2) (Qabs (x - inject_Z (Qfloor x)))) eqn:E.
  - apply Qle_bool_iff in E. rewrite A in E. f_equal. symmetry.
    apply Qfloor_unique. rewrite inject_Z_plus. change (inject_Z 1) with 1. lra.
  - assert (L : x - inject_Z (Qfloor x) < 1 # 2).
    { apply Qnot_le_lt. intros C. rewrite <- A in C. apply Qle_bool_iff in C. congruence. }
    f_equal. symmetry. apply Qfloor_unique. lra.
Qed.

Lemma floor_half_int (n : Z) : Qfloor (inject_Z n + (1 # 2)) = n.
Proof. apply Qfloor_unique. lra. Qed.

Lemma trunc_int (n : Z) : float64.trunc (inject_Z n) = n.
Proof.
  unfold float64.trunc, Qceiling.
  rewrite <- inject_Z_opp, !Qfloor_Z, Z.opp_involutive. now destruct (Qle_bool 0 (inject_Z n)).
Qed.

Lemma int_of_float64_int (arch : Arch) (n : Z) :
  goint.in_range n = true -> int_of_float64 arch (inject_Z n) = n.
Proof. intros H. unfold int_of_float64. now rewrite trunc_int, H. Qed.

End Rounding.

(** ** The interpolation *)

Section Interpolation.

Import float64 float64_facts.
Local Open Scope Q_scope.

Lemma valid_inv (c : WordScorerConfig) :
  spec.valid c = true ->
  (0 <= MinScore c /\ MinScore c <= MaxScore c /\ 0 < ThresholdWordsForMaxScore c)%Z.
Proof.
  unfold spec.valid. intros H.
  apply andb_prop in H as [H Ht]. apply andb_prop in H as [Hmin Hmax]. lia.
Qed.

Lemma wrap_small (z : Z) : (goint.min_int <= z <= goint.max_int)%Z -> goint.wrap z = z.
Proof.
  unfold goint.min_int, goint.max_int, goint.wrap. intros H.
  rewrite Z.mod_small; lia.
Qed.

Lemma inject_Z_nonneg (n : Z) : (0 <= n)%Z -> 0 <= inject_Z n.
Proof. intros H. change 0 with (inject_Z 0). now rewrite <- Zle_Qle. Qed.

Lemma of_int_nonneg (n : Z) : (0 <= n)%Z -> 0 <= of_int n.
Proof. intros H. apply RN_nonneg, inject_Z_nonneg, H. Qed.

Lemma of_int_mono (a b : Z) : (0 <= a <= b)%Z -> of_int a <= of_int b.
Proof.
  intros [H0 H]. apply RN_mono; [now apply inject_Z_nonneg | now rewrite <- Zle_Qle].
Qed.

Lemma of_int_exact (n : Z) : (0 <= n <= 2 ^ 53)%Z -> of_int n == inject_Z n.
Proof. apply RN_int. Qed.

Lemma of_int_ge_1 (n : Z) : (1 <= n)%Z -> 1 <= of_int n.
Proof.
  intros H. rewrite <- RN_one. change 1 with (inject_Z 1) at 1.
  apply (of_int_mono 1 n). lia.
Qed.

(** [progress] lies between 0 and 1 *)
Lemma progress_bounds (w t : Z) :
  (0 < w < t)%Z -> 0 <= div (of_int w) (of_int t) <= 1.
Proof.
  intros [Hw Ht]. unfold div.
  pose proof (of_int_ge_1 w ltac:(lia)) as W1.
  pose proof (of_int_mono w t ltac:(lia)) as WT.
  assert (Q1 : 0 <= of_int w / of_int t).
  { apply Qle_shift_div_l; lra. }
  assert (Q2 : of_int w / of_int t <= 1).
  { apply Qle_shift_div_r; lra. }
  split; [now apply RN_nonneg|].
  rewrite <- RN_one. now apply RN_mono.
Qed.

(** and grows with the word count. *)
Lemma progress_mono (w1 w2 t : Z) :
  (0 < w1 <= w2)%Z -> (w2 < t)%Z ->
  div (of_int w1) (of_int t) <= div (of_int w2) (of_int t).
Proof.
  intros [H1 H12] Ht. unfold div.
  pose proof (of_int_ge_1 w1 ltac:(lia)) as W1.
  pose proof (of_int_mono w1 w2 ltac:(lia)) as W12.
  pose proof (of_int_mono w2 t ltac:(lia)) as WT.
  assert (P : 0 < / of_int t) by (apply Qinv_lt_0_compat; lra).
  apply RN_mono.
  - apply Qle_shift_div_l; lra.
  - unfold Qdiv. apply Qmult_le_compat_r; lra.
Qed.

Variable arch : Arch.

Lemma add_mul_mono (z x1 x2 y : Q) :
  0 <= z -> 0 <= y -> 0 <= x1 -> x1 <= x2 ->
  add_mul arch z x1 y <= add_mul arch z x2 y.
Proof.
  intros Hz Hy H1 H12. unfold add_mul, fma, add, mul.
  assert (M : x1 * y <= x2 * y) by (apply Qmult_le_compat_r; assumption).
  assert (M0 : 0 <= x1 * y) by (apply Qmult_le_0_compat; assumption).
  destruct (fuses_multiply_add arch).
  - apply RN_mono; lra.
  - pose proof (RN_nonneg _ M0). pose proof (RN_mono _ _ M0 M).
    apply RN_mono; lra.
Qed.

Lemma add_mul_lower (z x y : Q) :
  0 <= z -> 0 <= y -> 0 <= x -> RN z <= add_mul arch z x y.
Proof.
  intros Hz Hy Hx. unfold add_mul, fma, add, mul.
  assert (M0 : 0 <= x * y) by (apply Qmult_le_0_compat; assumption).
  destruct (fuses_multiply_add arch).
  - apply RN_mono; lra.
  - pose proof (RN_nonneg _ M0). apply RN_mono; lra.
Qed.

Lemma add_mul_upper (z x y bz b : Q) :
  0 <= z -> z <= bz -> 0 <= y -> y <= b -> RN b == b -> 0 <= x -> x <= 1 ->
  add_mul arch z x y <= RN (bz + b).
Proof.
  intros Hz Hbz Hy Hb Eb Hx Hx1. unfold add_mul, fma, add, mul.
  assert (M0 : 0 <= x * y) by (apply Qmult_le_0_compat; assumption).
  assert (M1 : x * y <= y).
  { rewrite <- (Qmult_1_l y) at 2. apply Qmult_le_compat_r; assumption. }
  destruct (fuses_multiply_add arch).
  - apply RN_mono; lra.
  - pose proof (RN_nonneg _ M0).
    assert (RN (x * y) <= b) by (rewrite <- Eb; apply RN_mono; lra).
    apply RN_mono; lra.
Qed.

(** When the rounded value fits an [int], [finalScore] is
    [floor (calculatedScore + 1/2)]. *)
Lemma finalScore_floor (s : WordScorer) (w : Z) :
  0 <= calculatedScore arch s w ->
  goint.in_range (Qfloor (calculatedScore arch s w + (1 # 2))) = true ->
  finalScore arch s w = Qfloor (calculatedScore arch s w + (1 # 2)).
Proof.
  intros H0 Hr. unfold finalScore.
  rewrite (Round_nonneg _ H0). now apply int_of_float64_int.
Qed.

Lemma floor_half_between (x : Q) (a b : Z) :
  inject_Z a <= x -> x <= inject_Z b ->
  (a <= Qfloor (x + (1 # 2)) <= b)%Z.
Proof.
  intros Ha Hb. split.
  - rewrite <- (floor_half_int a). apply Qfloor_resp_le. lra.
  - rewrite <- (floor_half_int b). apply Qfloor_resp_le. lra.
Qed.

Section ValidScorer.

Variable s : WordScorer.
Hypothesis Hvalid : spec.valid (config s) = true.
Hypothesis Hint : (MaxScore (config s) <= goint.max_int)%Z.

Let mn := MinScore (config s).
Let mx := MaxScore (config s).
Let t := ThresholdWordsForMaxScore (config s).

Lemma scoreRange_eq : goint.sub mx mn = (mx - mn)%Z.
Proof.
  destruct (valid_inv _ Hvalid) as (H1 & H2 & H3). fold mn mx in H1, H2.
  unfold goint.sub. apply wrap_small.
  unfold goint.min_int, goint.max_int in *. fold mx in Hint. lia.
Qed.

Lemma calculatedScore_mono (w1 w2 : Z) :
  (0 < w1 <= w2)%Z -> (w2 < t)%Z ->
  calculatedScore arch s w1 <= calculatedScore arch s w2.
Proof.
  intros H1 H2. destruct (valid_inv _ Hvalid) as (V1 & V2 & V3).
  unfold calculatedScore. fold mn mx t. rewrite scoreRange_eq.
  apply add_mul_mono.
  - apply of_int_nonneg. exact V1.
  - apply of_int_nonneg. fold mn mx in V2. lia.
  - apply progress_bounds. fold t in V3. lia.
  - now apply progress_mono.
Qed.

Lemma calculatedScore_lower (w : Z) :
  (0 < w < t)%Z -> RN (of_int mn) <= calculatedScore arch s w.
Proof.
  intros H. destruct (valid_inv _ Hvalid) as (V1 & V2 & V3).
  unfold calculatedScore. fold mn mx t. rewrite scoreRange_eq.
  apply add_mul_lower.
  - apply of_int_nonneg. exact V1.
  - apply of_int_nonneg. fold mn mx in V2. lia.
  - now apply progress_bounds.
Qed.

Lemma calculatedScore_nonneg (w : Z) :
  (0 < w < t)%Z -> 0 <= calculatedScore arch s w.
Proof.
  intros H. eapply Qle_trans; [|now apply calculatedScore_lower].
  destruct (valid_inv _ Hvalid) as (V1 & V2 & V3).
  apply RN_nonneg, of_int_nonneg, V1.
Qed.

Lemma calculatedScore_upper (w : Z) (bz b : Q) :
  (0 < w < t)%Z -> of_int mn <= bz -> of_int (mx - mn) <= b -> RN b == b ->
  calculatedScore arch s w <= RN (bz + b).
Proof.
  intros H Hbz Hb Eb. destruct (valid_inv _ Hvalid) as (V1 & V2 & V3).
  unfold calculatedScore. fold mn mx t. rewrite scoreRange_eq.
  apply add_mul_upper; try assumption.
  - apply of_int_nonneg. exact V1.
  - apply of_int_nonneg. fold mn mx in V2. lia.
  - now apply progress_bounds.
  - now apply progress_bounds.
Qed.

End ValidScorer.

End Interpolation.

(** ** The exponent range *)

Section Range.

Import float64 float64_facts.
Local Open Scope Q_scope.

Lemma normal_intro (x : Q) :
  x == 0 \/ 2 ^ (-63) <= x <= 2 ^ 64 -> float64.normal x = true.
Proof.
  unfold float64.normal. intros [Hz | [L U]].
  - apply Qeq_bool_iff in Hz. now rewrite Hz.
  - assert (P : 0 < 2 ^ (-63)) by apply pow2_pos.
    assert (A : Qabs x == x) by (apply Qabs_pos; lra).
    assert (L' : 2 ^ (-1022) <= Qabs x).
    { rewrite A. eapply Qle_trans; [|exact L]. apply pow2_le. lia. }
    assert (U' : Qabs x < 2 ^ 1024).
    { rewrite A. eapply Qle_lt_trans; [exact U|]. apply pow2_lt. lia. }
    apply Qle_bool_iff in L'. rewrite L'.
    destruct (Qle_bool (2 ^ 1024) (Qabs x)) eqn:E.
    + apply Qle_bool_iff in E. lra.
    + apply orb_true_r.
Qed.

(** Rounding keeps a value in [{0}] or [[2^a, 2^b]] there. *)
Lemma RN_keeps (a b : Z) (x : Q) :
  x == 0 \/ 2 ^ a <= x <= 2 ^ b ->
  RN x == 0 \/ 2 ^ a <= RN x <= 2 ^ b.
Proof.
  intros [Hz | [L U]]; [left; now rewrite (RN_zero x Hz) | right].
  pose proof (pow2_pos a) as Pa.
  assert (Hx : 0 < x) by lra.
  pose proof (RN_pos_bounds x Hx) as [B1 B2].
  destruct (ilogb_spec x Hx) as [S1 S2].
  split.
  - eapply Qle_trans; [|exact B1]. apply pow2_le.
    assert (L2 : 2 ^ a < 2 ^ (ilogb x + 1)) by lra.
    apply (Qpower_lt_compat_l_inv 2 a (ilogb x + 1)) in L2; [lia | reflexivity].
  - assert (L2 : 2 ^ ilogb x <= 2 ^ b) by lra.
    apply (Qpower_le_compat_l_inv 2 (ilogb x) b) in L2; [|reflexivity].
    destruct (Z.eq_dec (ilogb x) b) as [E | N].
    + (* [x] is the power of two [2^b], which is its own rounding *)
      rewrite E in S1. assert (X : x == 2 ^ b) by lra.
      assert (R : RN x == x).
      { apply (RN_exact x (2 ^ 52)); [exact Hx|]. rewrite E, X, div_pow2, <- pow2_add.
        replace (b + - (b - 52))%Z with 52%Z by lia. reflexivity. }
      rewrite R. exact U.
    + eapply Qle_trans; [exact B2|]. apply pow2_le. lia.
Qed.

Variable arch : Arch.
Variable s : WordScorer.
Hypothesis Hvalid : spec.valid (config s) = true.
Hypothesis Hmax : (MaxScore (config s) <= goint.max_int)%Z.
Hypothesis Hthr : (ThresholdWordsForMaxScore (config s) <= goint.max_int)%Z.
Variable w : Z.
Hypothesis Hw : (0 < w < ThresholdWordsForMaxScore (config s))%Z.

Let mn := MinScore (config s).
Let mx := MaxScore (config s).
Let t := ThresholdWordsForMaxScore (config s).

Lemma RN_within (a b : Z) (lo hi x : Q) :
  lo == 2 ^ a -> hi == 2 ^ b ->
  x == 0 \/ lo <= x <= hi ->
  RN x == 0 \/ lo <= RN x <= hi.
Proof. intros -> ->. apply RN_keeps. Qed.

Lemma int_range (n : Z) :
  (0 <= n <= goint.max_int)%Z ->
  inject_Z n == 0 \/ 1 <= inject_Z n <= 9223372036854775808.
Proof.
  unfold goint.max_int. intros [H0 H1].
  destruct (Z.eq_dec n 0) as [-> | N]; [left; reflexivity | right].
  change 1 with (inject_Z 1). change 9223372036854775808 with (inject_Z (2 ^ 63)).
  rewrite <- !Zle_Qle. lia.
Qed.

Lemma of_int_range (n : Z) :
  (0 <= n <= goint.max_int)%Z ->
  of_int n == 0 \/ 1 <= of_int n <= 9223372036854775808.
Proof.
  intros H. apply (RN_within 0 63); [reflexivity | reflexivity | now apply int_range].
Qed.

(** The values that [calculatedScore] computes: the conversions are zero
    or lie between 1 and [2^63], [progress] lies between [2^-63] and 1,
    the product is zero or lies between [2^-63] and [2^63]. *)
Lemma calculatedScore_bands :
  let scoreRange := of_int (goint.sub mx mn) in
  let progress := div (of_int w) (of_int t) in
  (of_int mn == 0 \/ 1 <= of_int mn <= 9223372036854775808)
  /\ (scoreRange == 0 \/ 1 <= scoreRange <= 9223372036854775808)
  /\ 1 <= of_int w <= 9223372036854775808
  /\ 1 <= of_int t <= 9223372036854775808
  /\ (1 # 9223372036854775808) <= progress <= 1
  /\ (scoreRange == 0 -> progress * scoreRange == 0)
  /\ (1 <= scoreRange <= 9223372036854775808 ->
      (1 # 9223372036854775808) <= progress * scoreRange <= 9223372036854775808)
  /\ (mul progress scoreRange == 0
      \/ (1 # 9223372036854775808) <= mul progress scoreRange <= 9223372036854775808).
Proof.
  intros scoreRange progress.
  destruct (valid_inv _ Hvalid) as (V1 & V2 & V3).
  fold mn in V1. fold mn mx in V2. fold t in V3. fold mx in Hmax. fold t in Hthr.
  assert (Hr : goint.sub mx mn = (mx - mn)%Z) by (apply (scoreRange_eq s Hvalid Hmax)).
  assert (M : of_int mn == 0 \/ 1 <= of_int mn <= 9223372036854775808)
    by (apply of_int_range; unfold goint.max_int in *; lia).
  assert (R : scoreRange == 0 \/ 1 <= scoreRange <= 9223372036854775808)
    by (unfold scoreRange; rewrite Hr; apply of_int_range; unfold goint.max_int in *; lia).
  assert (W : 1 <= of_int w <= 9223372036854775808).
  { destruct (of_int_range w) as [Hz | B]; [unfold goint.max_int in *; lia | | exact B].
    exfalso. pose proof (of_int_ge_1 w ltac:(lia)). lra. }
  assert (T : 1 <= of_int t <= 9223372036854775808).
  { destruct (of_int_range t) as [Hz | B]; [unfold goint.max_int in *; lia | | exact B].
    exfalso. pose proof (of_int_ge_1 t ltac:(lia)). lra. }
  assert (P : (1 # 9223372036854775808) <= progress <= 1).
  { assert (D : (1 # 9223372036854775808) <= of_int w / of_int t)
      by (apply Qle_shift_div_l; lra).
    assert (U : of_int w / of_int t <= 1).
    { pose proof (of_int_mono w t ltac:(lia)). apply Qle_shift_div_r; lra. }
    destruct (RN_within (-63) 0 (1 # 9223372036854775808) 1 (of_int w / of_int t))
      as [Hz | B]; [reflexivity | reflexivity | right; split; assumption | | exact B].
    exfalso.
    assert (K : RN (1 # 9223372036854775808) == 1 # 9223372036854775808)
      by (vm_compute; reflexivity).
    assert (C : RN (1 # 9223372036854775808) <= RN (of_int w / of_int t))
      by (apply RN_mono; [lra | exact D]).
    lra. }
  assert (PR0 : scoreRange == 0 -> progress * scoreRange == 0)
    by (intros ->; ring).
  assert (PR1 : 1 <= scoreRange <= 9223372036854775808 ->
                (1 # 9223372036854775808) <= progress * scoreRange <= 9223372036854775808).
  { intros [R1 R2]. split.
    - setoid_replace (1 # 9223372036854775808) with ((1 # 9223372036854775808) * 1) by ring.
      apply Qmult_le_compat_nonneg; split; lra.
    - setoid_replace 9223372036854775808 with (1 * 9223372036854775808) by ring.
      apply Qmult_le_compat_nonneg; split; lra. }
  assert (PR : mul progress scoreRange == 0
               \/ (1 # 9223372036854775808) <= mul progress scoreRange <= 9223372036854775808).
  { apply (RN_within (-63) 63); [reflexivity | reflexivity |].
    destruct R as [R | R]; [left; now apply PR0 | right; now apply PR1]. }
  exact (conj M (conj R (conj W (conj T (conj P (conj PR0 (conj PR1 PR))))))).
Qed.

(** Every value that [calculatedScore] computes is zero or lies between
    [2^-63] and [2^64]: within the normal range of binary64. *)
Lemma calculatedScore_normal :
  let scoreRange := of_int (goint.sub mx mn) in
  let progress := div (of_int w) (of_int t) in
  float64.normal (of_int mn) = true
  /\ float64.normal scoreRange = true
  /\ float64.normal (of_int w) = true
  /\ float64.normal (of_int t) = true
  /\ float64.normal progress = true
  /\ float64.normal (mul progress scoreRange) = true
  /\ float64.normal (calculatedScore arch s w) = true.
Proof.
  intros scoreRange progress.
  destruct calculatedScore_bands as (M & R & W & T & P & PR0 & PR1 & PR).
  fold scoreRange progress in R, P, PR0, PR1, PR.
  assert (C : calculatedScore arch s w == 0
              \/ (1 # 9223372036854775808) <= calculatedScore arch s w <= 18446744073709551616).
  { unfold calculatedScore, add_mul, fma, add. fold mn mx t. fold scoreRange progress.
    destruct (fuses_multiply_add arch);
      apply (RN_within (-63) 64); try reflexivity.
    - destruct R as [R | R].
      + apply PR0 in R. destruct M as [M | M]; [left | right]; lra.
      + apply PR1 in R. destruct M as [M | M]; right; lra.
    - destruct PR as [PR | PR]; destruct M as [M | M]; [left | right | right | right]; lra. }
  assert (N : forall x, x == 0 \/ (1 # 9223372036854775808) <= x <= 18446744073709551616 ->
                        float64.normal x = true).
  { intros x H. apply normal_intro.
    assert (Em : 2 ^ (-63) == 1 # 9223372036854775808) by reflexivity.
    assert (E64 : 2 ^ 64 == 18446744073709551616) by reflexivity.
    rewrite Em, E64. exact H. }
  repeat split; apply N.
  - destruct M as [M | M]; [now left | right; lra].
  - destruct R as [R | R]; [now left | right; lra].
  - right; lra.
  - right; lra.
  - right; lra.
  - destruct PR as [Hz | B]; [now left | right; lra].
  - exact C.
Qed.

End Range.


(* ===================================================================== *)
(** * Agreement with the reference implementation of binary64 *)
(* ===================================================================== *)

Module ieee754_facts.

Import float64 float64_facts.
Local Open Scope Q_scope.

(** ** Digits *)

Lemma digits2_size (m : positive) : digits2_pos m = Pos.size m.
Proof. induction m; simpl; now rewrite ?IHm. Qed.

Lemma digits2_log2 (m : positive) : (Zpos (digits2_pos m) = Z.log2 (Zpos m) + 1)%Z.
Proof.
  rewrite digits2_size. destruct m; simpl; try lia.
Qed.

Lemma digits2_bounds (m : positive) :
  (2 ^ (Zpos (digits2_pos m) - 1) <= Zpos m < 2 ^ Zpos (digits2_pos m))%Z.
Proof.
  rewrite digits2_log2. replace (Z.log2 (Zpos m) + 1 - 1)%Z with (Z.log2 (Zpos m)) by lia.
  apply (Z.log2_spec (Zpos m)). reflexivity.
Qed.

(** ** Shifting right with a rounding and a sticky bit *)

Lemma iter_pos_iter {A} (f : A -> A) (p : positive) (x : A) :
  iter_pos f p x = Pos.iter f x p.
Proof.
  revert x. induction p as [p IH | p IH |]; intros x; simpl.
  - rewrite !IH. rewrite <- !Pos.iter_swap. reflexivity.
  - now rewrite !IH.
  - reflexivity.
Qed.


Lemma inject_xO (p : positive) : inject_Z (Zpos p~0) == 2 * inject_Z (Zpos p).
Proof. change (Zpos p~0) with (2 * Zpos p)%Z. now rewrite inject_Z_mult. Qed.

Lemma inject_xI (p : positive) : inject_Z (Zpos p~1) == 2 * inject_Z (Zpos p) + 1.
Proof.
  change (Zpos p~1) with (2 * Zpos p + 1)%Z. now rewrite inject_Z_plus, inject_Z_mult.
Qed.

Lemma shr_1_located (y : Q) (mrs : shr_record) :
  (0 <= shr_m mrs)%Z -> ieee754.located y mrs ->
  ieee754.located (y / 2) (shr_1 mrs) /\ shr_m (shr_1 mrs) = (shr_m mrs / 2)%Z.
Proof.
  destruct mrs as [m r s]. unfold ieee754.located. cbn [shr_m shr_r shr_s]. intros Hm H.
  assert (Half : forall a, a / 2 == a * (1 # 2)) by (intros a; field).
  destruct m as [|p|p]; [| |lia].
  - destruct r, s; simpl in *; rewrite Half; change (inject_Z 0) with 0 in *;
      (split; [|reflexivity]); lra.
  - destruct p as [p|p|].
    + pose proof (inject_xI p) as E.
      assert (D : (Zpos p~1 / 2 = Zpos p)%Z) by (rewrite Pos2Z.inj_xI; symmetry; apply Z.div_unique with 1%Z; lia).
      destruct r, s; simpl in *; rewrite Half; rewrite E in H; (split; [|first [exact D | symmetry; exact D]]); lra.
    + pose proof (inject_xO p) as E.
      assert (D : (Zpos p~0 / 2 = Zpos p)%Z) by (rewrite Pos2Z.inj_xO; symmetry; apply Z.div_unique with 0%Z; lia).
      destruct r, s; simpl in *; rewrite Half; rewrite E in H; (split; [|first [exact D | symmetry; exact D]]); lra.
    + destruct r, s; simpl in *; rewrite Half; change (inject_Z 1) with 1 in *;
        change (inject_Z 0) with 0; (split; [|reflexivity]); lra.
Qed.

Lemma located_eq (y y' : Q) (mrs : shr_record) :
  y == y' -> ieee754.located y mrs -> ieee754.located y' mrs.
Proof.
  intros E. unfold ieee754.located. destruct (shr_r mrs), (shr_s mrs); now rewrite E.
Qed.

Lemma shr_iter_located (n : nat) (y : Q) (mrs : shr_record) :
  (0 <= shr_m mrs)%Z -> ieee754.located y mrs ->
  ieee754.located (y / 2 ^ Z.of_nat n) (Nat.iter n shr_1 mrs)
  /\ (0 <= shr_m (Nat.iter n shr_1 mrs))%Z.
Proof.
  intros Hm H. induction n as [|n [IH1 IH2]].
  - simpl. split; [|exact Hm]. apply (located_eq y); [field | exact H].
  - change (Nat.iter (S n) shr_1 mrs) with (shr_1 (Nat.iter n shr_1 mrs)).
    destruct (shr_1_located _ _ IH2 IH1) as [L E]. split.
    + apply (located_eq (y / 2 ^ Z.of_nat n / 2)); [|exact L].
      rewrite Nat2Z.inj_succ. unfold Z.succ. rewrite pow2_succ.
      assert (P := pow2_pos (Z.of_nat n)). field. lra.
    + rewrite E. apply Z.div_pos; lia.
Qed.

(** Shifting by a positive amount. *)
Lemma shr_located (y : Q) (mrs : shr_record) (e n : Z) :
  (0 <= shr_m mrs)%Z -> (0 < n)%Z -> ieee754.located y mrs ->
  ieee754.located (y / 2 ^ n) (fst (shr mrs e n))
  /\ (0 <= shr_m (fst (shr mrs e n)))%Z
  /\ snd (shr mrs e n) = (e + n)%Z.
Proof.
  intros Hm Hn H. destruct n as [|p|p]; try lia. cbn [shr fst snd].
  rewrite iter_pos_iter, Pos2Nat.inj_iter.
  destruct (shr_iter_located (Pos.to_nat p) y mrs Hm H) as [L P].
  rewrite positive_nat_Z in L. auto.
Qed.

(** Rounding a ieee754.located value to nearest even is [rne]. *)
Lemma round_nearest_even_located (y : Q) (mrs : shr_record) :
  ieee754.located y mrs ->
  round_nearest_even (shr_m mrs) (loc_of_shr_record mrs) = rne y.
Proof.
  destruct mrs as [m r s]. unfold ieee754.located. cbn [shr_m shr_r shr_s]. intros H.
  assert (F : Qfloor y = m).
  { apply Qfloor_unique. destruct r, s; lra. }
  pose proof (rne_cases y) as C. cbv zeta in C. rewrite F in C.
  destruct r, s; simpl.
  - destruct C as [[C E] | [[C E] | [C _]]]; [lra | now rewrite E | lra].
  - destruct C as [[C E] | [[C E] | [C [[E | E] Ev]]]]; try lra.
    + rewrite E in Ev. now rewrite Ev.
    + rewrite E in Ev. rewrite E. rewrite Z.even_add in Ev.
      destruct (Z.even m); [discriminate | reflexivity].
  - destruct C as [[C E] | [[C E] | [C _]]]; [now rewrite E | lra | lra].
  - destruct C as [[C E] | [[C E] | [C _]]]; [now rewrite E | lra | lra].
Qed.

(** ** Rounding a ieee754.located value to binary64 *)

Lemma fexp64 (k : Z) : fexp 53 1024 k = Z.max (k - 53) (-1074).
Proof. reflexivity. Qed.

Lemma located_bounds (y : Q) (m : Z) (l : location) :
  ieee754.located y (shr_record_of_loc m l) -> inject_Z m <= y < inject_Z m + 1.
Proof. destruct l as [|[]]; unfold ieee754.located; simpl; lra. Qed.

(** The exponent of a value whose integer part has [d] digits. *)
Lemma ilogb_located (x : Q) (m : positive) (e : Z) (l : location) :
  ieee754.located (x / 2 ^ e) (shr_record_of_loc (Zpos m) l) ->
  0 < x /\ ilogb x = (Zpos (digits2_pos m) - 1 + e)%Z.
Proof.
  intros H. apply located_bounds in H. destruct H as [L U].
  pose proof (digits2_bounds m) as [D1 D2]. set (d := Zpos (digits2_pos m)) in *.
  assert (Dpos : (0 < d)%Z) by reflexivity.
  assert (P := pow2_pos e).
  assert (X : x == x / 2 ^ e * 2 ^ e) by (symmetry; apply mul_div_pow2).
  set (y := x / 2 ^ e) in *.
  assert (L' : 2 ^ (d - 1) <= y).
  { rewrite pow2_Z by lia. eapply Qle_trans; [|exact L]. now rewrite <- Zle_Qle. }
  assert (U' : y < 2 ^ d).
  { rewrite (pow2_Z d) by lia. eapply Qlt_le_trans; [exact U|].
    change 1 with (inject_Z 1). rewrite <- inject_Z_plus, <- Zle_Qle. lia. }
  assert (Q0 : 0 < 2 ^ (d - 1)) by apply pow2_pos.
  assert (Hx : 0 < x).
  { rewrite X. apply Qmult_lt_0_compat; lra. }
  split; [exact Hx|]. apply ilogb_unique. split.
  - rewrite pow2_add, X. apply Qmult_le_compat_r; lra.
  - replace (d - 1 + e + 1)%Z with (d + e)%Z by lia.
    rewrite pow2_add, X. apply Qmult_lt_compat_r; lra.
Qed.

Lemma digits_of_significand (M : positive) :
  (2 ^ 52 <= Zpos M < 2 ^ 53)%Z -> Zpos (digits2_pos M) = 53%Z.
Proof.
  intros H. rewrite digits2_log2. rewrite (Z.log2_unique (Zpos M) 52); lia.
Qed.

(** The last step of [binary_round_aux] on a rounded significand. *)
Lemma binary_round_aux_finish (sx : bool) (M E : Z) :
  (2 ^ 52 <= M <= 2 ^ 53)%Z -> (-1074 <= E <= 970)%Z ->
  let '(mrs, e) := shr_fexp 53 1024 M E loc_Exact in
  exists m' e',
    match shr_m mrs with
    | Z0 => S754_zero sx
    | Zpos m => if (e <=? 1024 - 53)%Z then S754_finite sx m e else S754_infinity sx
    | Zneg _ => S754_nan
    end = S754_finite sx m' e'
    /\ (2 ^ 52 <= Zpos m' < 2 ^ 53)%Z
    /\ inject_Z (Zpos m') * 2 ^ e' == inject_Z M * 2 ^ E.
Proof.
  intros HM HE. destruct M as [|pM|pM]; try lia.
  destruct (Z.eq_dec (Zpos pM) (2 ^ 53)) as [E53 | N53].
  - (* the rounding reached [2^53]: one more shift *)
    inversion E53; subst pM. unfold shr_fexp. cbn [Zdigits2].
    replace (Zpos (digits2_pos 9007199254740992)) with 54%Z by reflexivity.
    rewrite fexp64. replace (Z.max (54 + E - 53) (-1074) - E)%Z with 1%Z by lia.
    cbn. exists 4503599627370496%positive, (E + 1)%Z.
    replace (E + 1 <=? 971)%Z with true by lia. split; [reflexivity|].
    split; [lia|]. rewrite pow2_succ. 
    setoid_replace (inject_Z 9007199254740992) with (2 * inject_Z 4503599627370496)
      by reflexivity.
    ring.
  - unfold shr_fexp. cbn [Zdigits2]. rewrite digits_of_significand by lia.
    rewrite fexp64. replace (Z.max (53 + E - 53) (-1074) - E)%Z with 0%Z by lia.
    cbn. exists pM, E. replace (E <=? 971)%Z with true by lia.
    split; [reflexivity|]. split; [lia | reflexivity].
Qed.

(** [binary_round_aux] rounds like [RN], provided that the ieee754.located
    mantissa carries at least 53 digits and that the value lies in the
    normal range. *)
Lemma binary_round_aux_correct (sx : bool) (m : positive) (e : Z) (l : location) (x : Q) :
  ieee754.located (x / 2 ^ e) (shr_record_of_loc (Zpos m) l) ->
  (e <= ilogb x - 52)%Z ->
  (-1022 <= ilogb x <= 1022)%Z ->
  exists m' e',
    binary_round_aux 53 1024 sx (Zpos m) e l = S754_finite sx m' e'
    /\ (2 ^ 52 <= Zpos m' < 2 ^ 53)%Z
    /\ inject_Z (Zpos m') * 2 ^ e' == RN x.
Proof.
  intros Hloc Hn Hr. destruct (ilogb_located x m e l Hloc) as [Hx Hd].
  set (E := (ilogb x - 52)%Z) in *.
  assert (S1 : exists mrs', shr_fexp 53 1024 (Zpos m) e l = (mrs', E)
                            /\ ieee754.located (x / 2 ^ E) mrs').
  { unfold shr_fexp. cbn [Zdigits2]. rewrite fexp64.
    replace (Z.max (Zpos (digits2_pos m) + e - 53) (-1074) - e)%Z with (E - e)%Z
      by (unfold E; lia).
    destruct (Z.eq_dec (E - e) 0) as [Z0 | NZ].
    - rewrite Z0. cbn [shr]. exists (shr_record_of_loc (Zpos m) l).
      replace E with e by lia. split; [reflexivity | exact Hloc].
    - destruct (shr_located (x / 2 ^ e) (shr_record_of_loc (Zpos m) l) e (E - e))
        as (L & _ & Se); [destruct l as [|[]]; simpl; lia | lia | exact Hloc |].
      exists (fst (shr (shr_record_of_loc (Zpos m) l) e (E - e))). split.
      + rewrite (surjective_pairing (shr _ _ _)). rewrite Se. f_equal. lia.
      + apply (located_eq (x / 2 ^ e / 2 ^ (E - e))); [|exact L].
        replace E with (e + (E - e))%Z at 2 by lia. rewrite pow2_add.
        assert (P1 := pow2_pos e). assert (P2 := pow2_pos (E - e)). field. lra. }
  destruct S1 as (mrs' & S1 & L1).
  unfold binary_round_aux. rewrite S1.
  rewrite (round_nearest_even_located _ _ L1).
  pose proof (significand_bounds x Hx) as HM. fold E in HM.
  pose proof (binary_round_aux_finish sx (rne (x / 2 ^ E)) E HM ltac:(unfold E; lia)) as F.
  destruct (shr_fexp 53 1024 (rne (x / 2 ^ E)) E loc_Exact) as [mrs'' e''].
  destruct F as (m' & e' & F1 & F2 & F3). exists m', e'.
  split; [exact F1|]. split; [exact F2|].
  rewrite F3, (RN_pos x Hx). reflexivity.
Qed.

(** ** Exact mantissas: [binary_round] *)

Lemma iter_xO (m d : positive) : Zpos (Pos.iter xO m d) = (Zpos m * 2 ^ Zpos d)%Z.
Proof.
  induction d as [|d IH] using Pos.peano_ind.
  - simpl. lia.
  - rewrite Pos.iter_succ, Pos2Z.inj_xO, IH, Pos2Z.inj_succ, Z.pow_succ_r; lia.
Qed.

(** Alignment keeps the value and reaches the smaller exponent. *)
Lemma shl_align_spec (m : positive) (e e' : Z) :
  let '(mz, ez) := shl_align m e e' in
  ez = Z.min e e' /\ inject_Z (Zpos mz) * 2 ^ ez == inject_Z (Zpos m) * 2 ^ e.
Proof.
  unfold shl_align. destruct (e' - e)%Z as [|d|d] eqn:D.
  - split; [lia | reflexivity].
  - split; [lia | reflexivity].
  - split; [lia|]. rewrite iter_xO, inject_Z_mult, <- pow2_Z by lia.
    replace e with (Zpos d + e')%Z by lia. rewrite pow2_add. ring.
Qed.

Lemma ilogb_band (x : Q) (a b : Z) :
  2 ^ a <= x -> x < 2 ^ b -> (a <= ilogb x < b)%Z.
Proof.
  intros L U. assert (Hx : 0 < x) by (pose proof (pow2_pos a); lra).
  destruct (ilogb_spec x Hx) as [S1 S2]. split.
  - assert (C : 2 ^ a < 2 ^ (ilogb x + 1)) by lra.
    apply (Qpower_lt_compat_l_inv 2 a (ilogb x + 1)) in C; [lia | reflexivity].
  - assert (C : 2 ^ ilogb x < 2 ^ b) by lra.
    apply (Qpower_lt_compat_l_inv 2 (ilogb x) b) in C; [lia | reflexivity].
Qed.

Lemma binary_round_correct (sx : bool) (m : positive) (e : Z) (x : Q) :
  x == inject_Z (Zpos m) * 2 ^ e ->
  (-1022 <= ilogb x <= 1022)%Z ->
  exists m' e',
    binary_round 53 1024 sx m e = S754_finite sx m' e'
    /\ (2 ^ 52 <= Zpos m' < 2 ^ 53)%Z
    /\ inject_Z (Zpos m') * 2 ^ e' == RN x.
Proof.
  intros X Hr. unfold binary_round.
  pose proof (shl_align_spec m e (fexp 53 1024 (Zpos (digits2_pos m) + e))) as A.
  destruct (shl_align m e (fexp 53 1024 (Zpos (digits2_pos m) + e))) as [mz ez].
  destruct A as [Ez Ev].
  assert (L0 : ieee754.located (x / 2 ^ e) (shr_record_of_loc (Zpos m) loc_Exact)).
  { unfold ieee754.located. simpl. rewrite X. assert (P := pow2_pos e). field. lra. }
  destruct (ilogb_located x m e loc_Exact L0) as [Hx Hd].
  assert (L : ieee754.located (x / 2 ^ ez) (shr_record_of_loc (Zpos mz) loc_Exact)).
  { unfold ieee754.located. simpl. rewrite X, <- Ev. assert (P := pow2_pos ez). field. lra. }
  apply (binary_round_aux_correct sx mz ez loc_Exact x L); [|exact Hr].
  rewrite Ez, fexp64. lia.
Qed.

(** ** The operations *)


Lemma represents_value (f : spec_float) (x : Q) :
  ieee754.represents f x -> exists v, ieee754.value f = Some v /\ v == x.
Proof.
  intros [[Z0 ->] | (m & e & -> & _ & V)].
  - exists 0. split; [reflexivity | now symmetry].
  - exists (inject_Z (Zpos m) * 2 ^ e). split; [reflexivity | exact V].
Qed.

Lemma normal_form_ilogb (m : positive) (e : Z) (x : Q) :
  (2 ^ 52 <= Zpos m < 2 ^ 53)%Z -> inject_Z (Zpos m) * 2 ^ e == x ->
  0 < x /\ ilogb x = (52 + e)%Z.
Proof.
  intros Hm V.
  assert (L : ieee754.located (x / 2 ^ e) (shr_record_of_loc (Zpos m) loc_Exact)).
  { unfold ieee754.located. simpl. rewrite <- V. assert (P := pow2_pos e). field. lra. }
  destruct (ilogb_located x m e loc_Exact L) as [Hx Hd].
  split; [exact Hx|]. rewrite Hd, digits_of_significand by exact Hm. lia.
Qed.

(** A binary64 number is its own rounding. *)
Lemma represents_RN (f : spec_float) (x : Q) : ieee754.represents f x -> RN x == x.
Proof.
  intros [[Z0 _] | (m & e & _ & Hm & V)].
  - rewrite (RN_zero x Z0). now symmetry.
  - destruct (normal_form_ilogb m e x Hm V) as [Hx Hi].
    apply (RN_exact x (Zpos m)); [exact Hx|]. rewrite Hi.
    replace (52 + e - 52)%Z with e by lia. rewrite <- V.
    assert (P := pow2_pos e). field. lra.
Qed.

Lemma of_int_represents (n : Z) :
  (0 <= n < 2 ^ 64)%Z -> ieee754.represents (ieee754.from_int n) (of_int n).
Proof.
  intros [H0 H1]. unfold ieee754.from_int, of_int, binary_normalize.
  destruct n as [|p|p]; [left; split; reflexivity | | lia]. right.
  assert (X : inject_Z (Zpos p) == inject_Z (Zpos p) * 2 ^ 0) by (simpl; ring).
  assert (B : (0 <= ilogb (inject_Z (Zpos p)) < 64)%Z).
  { apply ilogb_band.
    - change (2 ^ 0) with (inject_Z 1). rewrite <- Zle_Qle. lia.
    - rewrite (pow2_Z 64) by lia. rewrite <- Zlt_Qlt. exact H1. }
  destruct (binary_round_correct false p 0 _ X ltac:(lia)) as (m' & e' & E & Hm & V).
  exists m', e'. unfold ieee754.mantissa_bits, ieee754.emax. auto.
Qed.

Lemma mul_represents (f1 f2 : spec_float) (x1 x2 : Q) :
  ieee754.represents f1 x1 -> ieee754.represents f2 x2 ->
  (x1 * x2 == 0 \/ (-1022 <= ilogb (x1 * x2) <= 1022)%Z) ->
  ieee754.represents (SFmul 53 1024 f1 f2) (mul x1 x2).
Proof.
  intros [[Z1 ->] | (m1 & e1 & -> & Hm1 & V1)] [[Z2 ->] | (m2 & e2 & -> & Hm2 & V2)] Hr;
    unfold mul.
  - left. split; [|reflexivity]. rewrite RN_zero; [reflexivity | rewrite Z1; ring].
  - left. split; [|reflexivity]. rewrite RN_zero; [reflexivity | rewrite Z1; ring].
  - left. split; [|reflexivity]. rewrite RN_zero; [reflexivity | rewrite Z2; ring].
  - right. cbn [SFmul xorb].
    destruct (normal_form_ilogb m1 e1 x1 Hm1 V1) as [P1 _].
    destruct (normal_form_ilogb m2 e2 x2 Hm2 V2) as [P2 _].
    assert (Px : 0 < x1 * x2) by (apply Qmult_lt_0_compat; assumption).
    destruct Hr as [Hz | Hr]; [lra|].
    assert (V : x1 * x2 == inject_Z (Zpos (m1 * m2)) * 2 ^ (e1 + e2)).
    { rewrite Pos2Z.inj_mul, inject_Z_mult, pow2_add, <- V1, <- V2. ring. }
    assert (L : ieee754.located (x1 * x2 / 2 ^ (e1 + e2))
                        (shr_record_of_loc (Zpos (m1 * m2)) loc_Exact)).
    { unfold ieee754.located. simpl. rewrite V. assert (P := pow2_pos (e1 + e2)). field. lra. }
    destruct (ilogb_located _ _ _ _ L) as [_ Hd].
    apply (binary_round_aux_correct false (m1 * m2) (e1 + e2) loc_Exact _ L); [|exact Hr].
    (* the product of two significands has at least 105 digits *)
    pose proof (digits2_bounds (m1 * m2)) as [_ D].
    assert (104 < Zpos (digits2_pos (m1 * m2)))%Z.
    { apply (Z.pow_lt_mono_r_iff 2); [lia | lia |].
      eapply Z.le_lt_trans; [|exact D]. rewrite Pos2Z.inj_mul.
      change (2 ^ 104)%Z with (2 ^ 52 * 2 ^ 52)%Z. apply Z.mul_le_mono_nonneg; lia. }
    lia.
Qed.

Lemma add_represents (f1 f2 : spec_float) (x1 x2 : Q) :
  ieee754.represents f1 x1 -> ieee754.represents f2 x2 ->
  (x1 + x2 == 0 \/ (-1022 <= ilogb (x1 + x2) <= 1022)%Z) ->
  ieee754.represents (SFadd 53 1024 f1 f2) (add x1 x2).
Proof.
  intros R1 R2 Hr. unfold add.
  pose proof (represents_RN _ _ R1) as I1. pose proof (represents_RN _ _ R2) as I2.
  destruct R1 as [[Z1 ->] | (m1 & e1 & -> & Hm1 & V1)];
    destruct R2 as [[Z2 ->] | (m2 & e2 & -> & Hm2 & V2)].
  - left. split; [|reflexivity]. rewrite RN_zero; [reflexivity | rewrite Z1, Z2; ring].
  - right. exists m2, e2. cbn [SFadd]. split; [reflexivity|]. split; [exact Hm2|].
    rewrite V2. transitivity (RN x2); [now symmetry | apply RN_comp; rewrite Z1; ring].
  - right. exists m1, e1. cbn [SFadd]. split; [reflexivity|]. split; [exact Hm1|].
    rewrite V1. transitivity (RN x1); [now symmetry | apply RN_comp; rewrite Z2; ring].
  - right. cbn [SFadd cond_Zopp].
    destruct (normal_form_ilogb m1 e1 x1 Hm1 V1) as [P1 _].
    destruct (normal_form_ilogb m2 e2 x2 Hm2 V2) as [P2 _].
    destruct Hr as [Hz | Hr]; [lra|].
    pose proof (shl_align_spec m1 e1 (Z.min e1 e2)) as A1.
    pose proof (shl_align_spec m2 e2 (Z.min e1 e2)) as A2.
    destruct (shl_align m1 e1 (Z.min e1 e2)) as [a1 z1].
    destruct (shl_align m2 e2 (Z.min e1 e2)) as [a2 z2].
    destruct A1 as [E1 W1]. destruct A2 as [E2 W2]. cbn [fst].
    change (Zpos a1 + Zpos a2)%Z with (Zpos (a1 + a2)). cbn [binary_normalize].
    apply (binary_round_correct false (a1 + a2) (Z.min e1 e2)); [|exact Hr].
    rewrite Pos2Z.inj_add, inject_Z_plus, <- V1, <- V2, <- W1, <- W2.
    replace z1 with (Z.min e1 e2) by lia. replace z2 with (Z.min e1 e2) by lia. ring.
Qed.

(** The remainder of a division tells where the quotient lies. *)
Lemma new_location_located (d r q : Z) :
  (0 < d)%Z -> (0 <= r < d)%Z ->
  ieee754.located (inject_Z q + inject_Z r / inject_Z d)
          (shr_record_of_loc q (new_location d r)).
Proof.
  intros Hd [Hr0 Hr1].
  set (D := inject_Z d). set (R := inject_Z r).
  assert (PD : 0 < D) by (unfold D; change 0 with (inject_Z 0); rewrite <- Zlt_Qlt; lia).
  assert (lt_half : (2 * r < d)%Z -> R / D < 1 # 2).
  { intros H. apply Qlt_shift_div_r; [exact PD|].
    assert (C : inject_Z (2 * r) < D) by (unfold D; rewrite <- Zlt_Qlt; lia).
    rewrite inject_Z_mult in C. fold R in C. change (inject_Z 2) with 2 in C. lra. }
  assert (gt_half : (d < 2 * r)%Z -> 1 # 2 < R / D).
  { intros H. apply Qlt_shift_div_l; [exact PD|].
    assert (C : D < inject_Z (2 * r)) by (unfold D; rewrite <- Zlt_Qlt; lia).
    rewrite inject_Z_mult in C. fold R in C. change (inject_Z 2) with 2 in C. lra. }
  assert (eq_half : (2 * r = d)%Z -> R / D == 1 # 2).
  { intros H. unfold D. rewrite <- H, inject_Z_mult. fold R. change (inject_Z 2) with 2.
    assert (0 < R) by (unfold R; change 0 with (inject_Z 0); rewrite <- Zlt_Qlt; lia).
    field. lra. }
  assert (pos : (0 < r)%Z -> 0 < R / D).
  { intros H. apply Qlt_shift_div_l; [exact PD|].
    assert (0 < R) by (unfold R; change 0 with (inject_Z 0); rewrite <- Zlt_Qlt; lia). lra. }
  assert (lt_one : R / D < 1).
  { apply Qlt_shift_div_r; [exact PD|].
    assert (R < D) by (unfold R, D; rewrite <- Zlt_Qlt; lia). lra. }
  assert (zero : r = 0%Z -> ieee754.located (inject_Z q + R / D) (shr_record_of_loc q loc_Exact)).
  { intros Hz. apply (located_eq (inject_Z q)); [|reflexivity].
    unfold R. rewrite Hz. change (inject_Z 0) with 0. field. lra. }
  unfold new_location.
  destruct (Z.even d) eqn:Ev; [unfold new_location_even | unfold new_location_odd];
    (destruct (Z.eqb_spec r 0) as [Hz | NZ]; [now apply zero|]);
    specialize (pos ltac:(lia)).
  - destruct (Z.compare_spec (2 * r) d) as [E | L | G]; unfold ieee754.located;
      cbn [shr_record_of_loc shr_m shr_r shr_s]; fold D R.
    + specialize (eq_half E). lra.
    + specialize (lt_half L). lra.
    + specialize (gt_half G). lra.
  - destruct (Z.compare_spec (2 * r + 1) d) as [E | L | G]; unfold ieee754.located;
      cbn [shr_record_of_loc shr_m shr_r shr_s]; fold D R.
    + specialize (lt_half ltac:(lia)). lra.
    + specialize (lt_half ltac:(lia)). lra.
    + assert (N : (2 * r <> d)%Z).
      { intros C. rewrite <- C, Z.even_mul in Ev. discriminate. }
      specialize (gt_half ltac:(lia)). lra.
Qed.

Lemma div_represents (f1 f2 : spec_float) (x1 x2 : Q) :
  ieee754.represents f1 x1 -> ieee754.represents f2 x2 -> 0 < x1 -> 0 < x2 ->
  (-1021 <= ilogb x1 - ilogb x2)%Z ->
  (-1022 <= ilogb (x1 / x2) <= 1022)%Z ->
  ieee754.represents (SFdiv 53 1024 f1 f2) (div x1 x2).
Proof.
  intros [[Z1 _] | (m1 & e1 & -> & Hm1 & V1)] [[Z2 _] | (m2 & e2 & -> & Hm2 & V2)]
         P1 P2 Hd Hr; try lra.
  destruct (normal_form_ilogb m1 e1 x1 Hm1 V1) as [_ I1].
  destruct (normal_form_ilogb m2 e2 x2 Hm2 V2) as [_ I2].
  right. unfold div. cbn [SFdiv xorb]. unfold SFdiv_core_binary. cbn [Zdigits2].
  rewrite !digits_of_significand by assumption. rewrite fexp64.
  replace (Z.min (Z.max (53 + e1 - (53 + e2) - 53) (-1074)) (e1 - e2))%Z
    with (e1 - e2 - 53)%Z by lia.
  replace (e1 - e2 - (e1 - e2 - 53))%Z with 53%Z by lia.
  rewrite Z.shiftl_mul_pow2 by lia.
  pose proof (Z_div_mod (Zpos m1 * 2 ^ 53) (Zpos m2) ltac:(lia)) as DM.
  destruct (Z.div_eucl (Zpos m1 * 2 ^ 53) (Zpos m2)) as [q r]. destruct DM as [DM Rr].
  assert (Hq : (2 ^ 52 <= q)%Z) by nia.
  destruct q as [|pq|pq]; try lia.
  set (e' := (e1 - e2 - 53)%Z).
  assert (L : ieee754.located (x1 / x2 / 2 ^ e') (shr_record_of_loc (Zpos pq) (new_location (Zpos m2) r))).
  { apply (located_eq (inject_Z (Zpos pq) + inject_Z r / inject_Z (Zpos m2)));
      [|apply new_location_located; lia].
    assert (Q2 : 0 < inject_Z (Zpos m2)) by reflexivity.
    assert (Pe1 := pow2_pos e1). assert (Pe2 := pow2_pos e2). assert (Pe := pow2_pos e').
    assert (E1 : 2 ^ e1 == 2 ^ e' * 2 ^ e2 * 2 ^ 53).
    { rewrite <- !pow2_add. now replace (e' + e2 + 53)%Z with e1 by (unfold e'; lia). }
    assert (Q : inject_Z (Zpos m1) * 2 ^ 53
                == inject_Z (Zpos m2) * inject_Z (Zpos pq) + inject_Z r).
    { rewrite (pow2_Z 53) by lia. rewrite <- !inject_Z_mult, <- inject_Z_plus.
      now rewrite DM. }
    rewrite <- V1, <- V2, E1.
    setoid_replace (inject_Z (Zpos m1) * (2 ^ e' * 2 ^ e2 * 2 ^ 53)
                    / (inject_Z (Zpos m2) * 2 ^ e2) / 2 ^ e')
      with (inject_Z (Zpos m1) * 2 ^ 53 / inject_Z (Zpos m2)) by (field; lra).
    rewrite Q. field. lra. }
  destruct (ilogb_located _ _ _ _ L) as [_ Hi].
  apply (binary_round_aux_correct false pq e' _ _ L); [|exact Hr].
  pose proof (digits2_bounds pq) as [_ D].
  assert (52 < Zpos (digits2_pos pq))%Z.
  { apply (Z.pow_lt_mono_r_iff 2); [lia | lia |]. lia. }
  lia.
Qed.

(** ** The interpolation *)

Lemma band_ilogb (x : Q) :
  (1 # 9223372036854775808) <= x <= 18446744073709551616 ->
  (-63 <= ilogb x < 65)%Z.
Proof.
  intros [L U]. apply ilogb_band.
  - assert (E : 2 ^ (-63) == 1 # 9223372036854775808) by reflexivity. now rewrite E.
  - assert (E : 2 ^ 65 == 36893488147419103232) by reflexivity. rewrite E. lra.
Qed.

(** Without fusion, the reference implementation of binary64 computes
    the value that [calculatedScore] denotes. *)
Lemma calculatedScore_represents (arch : Arch) (s : WordScorer) (w : Z) :
  fuses_multiply_add arch = false ->
  spec.valid (config s) = true ->
  (MaxScore (config s) <= goint.max_int)%Z ->
  (ThresholdWordsForMaxScore (config s) <= goint.max_int)%Z ->
  (0 < w < ThresholdWordsForMaxScore (config s))%Z ->
  ieee754.represents (ieee754.interpolate s w) (calculatedScore arch s w).
Proof.
  intros Hf Hv Hmax Hthr Hw.
  destruct (valid_inv _ Hv) as (V1 & V2 & V3).
  destruct (calculatedScore_bands s Hv Hmax Hthr w Hw) as (M & R & W & T & P & PR0 & PR1 & PR).
  pose proof (scoreRange_eq s Hv Hmax) as Hr.
  unfold ieee754.interpolate, calculatedScore, add_mul. rewrite Hf.
  unfold goint.max_int in *.
  set (scoreRange := of_int (goint.sub (MaxScore (config s)) (MinScore (config s)))) in *.
  set (progress := div (of_int w) (of_int (ThresholdWordsForMaxScore (config s)))) in *.
  assert (Rp : ieee754.represents
                 (SFdiv 53 1024 (ieee754.from_int w)
                        (ieee754.from_int (ThresholdWordsForMaxScore (config s))))
                 progress).
  { apply div_represents; try (apply of_int_represents; lia); try lra.
    - assert (-63 <= ilogb (of_int w) < 65)%Z by (apply band_ilogb; lra).
      assert (-63 <= ilogb (of_int (ThresholdWordsForMaxScore (config s))) < 65)%Z
        by (apply band_ilogb; lra).
      lia.
    - assert (-63 <= ilogb (of_int w / of_int (ThresholdWordsForMaxScore (config s))) < 65)%Z.
      { apply band_ilogb. split.
        - apply Qle_shift_div_l; lra.
        - apply Qle_shift_div_r; lra. }
      lia. }
  assert (Rr : ieee754.represents
                 (ieee754.from_int (goint.sub (MaxScore (config s)) (MinScore (config s))))
                 scoreRange).
  { apply of_int_represents. rewrite Hr. lia. }
  apply add_represents.
  - apply of_int_represents. lia.
  - apply mul_represents; [exact Rp | exact Rr |].
    destruct R as [R | R]; [left; now apply PR0 | right].
    assert (-63 <= ilogb (progress * scoreRange) < 65)%Z by (apply band_ilogb; specialize (PR1 R); lra).
    lia.
  - fold (mul progress scoreRange).
    destruct M as [M | M]; destruct PR as [Q0 | Q1];
      [left; lra | right | right | right];
      (assert (-63 <= ilogb (of_int (MinScore (config s)) + mul progress scoreRange) < 65)%Z
        by (apply band_ilogb; lra); lia).
Qed.

End ieee754_facts.

(** For every target that does not fuse, every valid configuration and
    every word count that reaches the interpolation, [float64.RN] and the
    reference implementation of binary64 compute the same value. *)
Lemma models_agree_without_fusion (arch : Arch) (s : WordScorer) (w : Z) :
  fuses_multiply_add arch = false ->
  spec.valid (config s) = true ->
  MaxScore (config s) <= goint.max_int ->
  ThresholdWordsForMaxScore (config s) <= goint.max_int ->
  0 < w < ThresholdWordsForMaxScore (config s) ->
  models_agree arch s w = true.
Proof.
  intros Hf Hv Hmax Hthr Hw. unfold models_agree.
  destruct (ieee754_facts.represents_value _ _
              (ieee754_facts.calculatedScore_represents arch s w Hf Hv Hmax Hthr Hw))
    as (v & -> & E).
  now apply Qeq_bool_iff.
Qed.

(* ===================================================================== *)
(** * The interpolation and the clamps *)
(* ===================================================================== *)

Section Clamp.

Import float64 float64_facts.
Local Open Scope Q_scope.

Variable arch : Arch.
Variable s : WordScorer.
Hypothesis Hvalid : spec.valid (config s) = true.

Let mn := MinScore (config s).
Let mx := MaxScore (config s).
Let t := ThresholdWordsForMaxScore (config s).

(** When every score is a binary64 value, the interpolated value stays
    between [MinScore] and [MaxScore], and so does its rounding. *)
Lemma calculatedScore_window (w : Z) :
  (mx <= 2 ^ 53)%Z -> (0 < w < t)%Z ->
  inject_Z mn <= calculatedScore arch s w <= inject_Z mx.
Proof.
  intros H53 Hw. destruct (valid_inv _ Hvalid) as (V1 & V2 & V3).
  fold mn in V1. fold mn mx in V2.
  assert (Hint : (MaxScore (config s) <= goint.max_int)%Z)
    by (fold mx; unfold goint.max_int; lia).
  assert (Emn : of_int mn == inject_Z mn) by (apply of_int_exact; lia).
  assert (Er : of_int (mx - mn) == inject_Z (mx - mn)) by (apply of_int_exact; lia).
  split.
  - eapply Qle_trans; [|apply (calculatedScore_lower arch s Hvalid Hint w Hw)].
    fold mn. rewrite Emn. apply Qle_lteq. right. symmetry. apply RN_int. lia.
  - eapply Qle_trans.
    + apply (calculatedScore_upper arch s Hvalid Hint w (inject_Z mn) (inject_Z (mx - mn)) Hw).
      * fold mn. rewrite Emn. apply Qle_refl.
      * fold mn mx. rewrite Er. apply Qle_refl.
      * apply RN_int. lia.
    + rewrite <- inject_Z_plus. replace (mn + (mx - mn))%Z with mx by lia.
      apply Qle_lteq. right. apply RN_int. lia.
Qed.

Lemma finalScore_window (w : Z) :
  (mx <= 2 ^ 53)%Z -> (0 < w < t)%Z ->
  finalScore arch s w = Qfloor (calculatedScore arch s w + (1 # 2))
  /\ (mn <= finalScore arch s w <= mx)%Z.
Proof.
  intros H53 Hw. destruct (valid_inv _ Hvalid) as (V1 & V2 & V3).
  fold mn in V1. fold mn mx in V2.
  destruct (calculatedScore_window w H53 Hw) as [L U].
  pose proof (floor_half_between _ _ _ L U) as B.
  assert (E : finalScore arch s w = Qfloor (calculatedScore arch s w + (1 # 2))).
  { apply finalScore_floor.
    - pose proof (inject_Z_nonneg mn V1). lra.
    - unfold goint.in_range, goint.min_int, goint.max_int.
      apply andb_true_intro. split; apply Z.leb_le; lia. }
  split; [exact E | now rewrite E].
Qed.

Lemma CalculateScore_interior (text : string) :
  (0 < CountWords s text < t)%Z ->
  (mn <= finalScore arch s (CountWords s text) <= mx)%Z ->
  CalculateScore arch s text = finalScore arch s (CountWords s text).
Proof.
  intros Hw Hf. unfold CalculateScore. fold mn mx t.
  replace (CountWords s text =? 0)%Z with false by lia.
  replace (CountWords s text >=? t)%Z with false by lia.
  replace (finalScore arch s (CountWords s text) <? mn)%Z with false by lia.
  replace (finalScore arch s (CountWords s text) >? mx)%Z with false by lia.
  reflexivity.
Qed.

End Clamp.

(** ** Growth with the word count *)

Section Monotone.

Import float64 float64_facts.
Local Open Scope Q_scope.

Variable arch : Arch.
Variable s : WordScorer.
Hypothesis Hvalid : spec.valid (config s) = true.
Hypothesis H62 : (MaxScore (config s) <= 2 ^ 62)%Z.

Let mn := MinScore (config s).
Let mx := MaxScore (config s).
Let t := ThresholdWordsForMaxScore (config s).

Lemma RN_2_61 : RN (inject_Z (2 ^ 61)) == inject_Z (2 ^ 61).
Proof. vm_compute. reflexivity. Qed.

Lemma RN_2_62 : RN (inject_Z (2 ^ 62)) == inject_Z (2 ^ 62).
Proof. vm_compute. reflexivity. Qed.

Lemma RN_3_2_61 : RN (inject_Z (3 * 2 ^ 61)) == inject_Z (3 * 2 ^ 61).
Proof. vm_compute. reflexivity. Qed.

(** Below [2^62] the interpolated value stays below [3 * 2^61], out of
    reach of the overflow of the conversion to [int]. *)
Lemma calculatedScore_below (w : Z) :
  (0 < w < t)%Z ->
  0 <= calculatedScore arch s w <= inject_Z (3 * 2 ^ 61).
Proof.
  intros Hw. destruct (valid_inv _ Hvalid) as (V1 & V2 & V3).
  fold mn in V1. fold mn mx in V2. fold mx in H62.
  assert (Hint : (MaxScore (config s) <= goint.max_int)%Z)
    by (fold mx; unfold goint.max_int; lia).
  split; [now apply calculatedScore_nonneg|].
  rewrite <- RN_3_2_61.
  destruct (Z_le_gt_dec mn (2 ^ 61)) as [Lo | Hi].
  - eapply Qle_trans.
    + apply (calculatedScore_upper arch s Hvalid Hint w
               (inject_Z (2 ^ 61)) (inject_Z (2 ^ 62)) Hw).
      * rewrite <- RN_2_61. apply (of_int_mono mn (2 ^ 61)). fold mn. lia.
      * rewrite <- RN_2_62. apply (of_int_mono (mx - mn) (2 ^ 62)). fold mn mx. lia.
      * apply RN_2_62.
    + rewrite <- inject_Z_plus. apply Qle_refl.
  - eapply Qle_trans.
    + apply (calculatedScore_upper arch s Hvalid Hint w
               (inject_Z (2 ^ 62)) (inject_Z (2 ^ 61)) Hw).
      * rewrite <- RN_2_62. apply (of_int_mono mn (2 ^ 62)). fold mn. lia.
      * rewrite <- RN_2_61. apply (of_int_mono (mx - mn) (2 ^ 61)). fold mn mx. lia.
      * apply RN_2_61.
    + rewrite <- inject_Z_plus. apply Qle_refl.
Qed.

Lemma finalScore_below (w : Z) :
  (0 < w < t)%Z ->
  finalScore arch s w = Qfloor (calculatedScore arch s w + (1 # 2)).
Proof.
  intros Hw. destruct (calculatedScore_below w Hw) as [L U].
  apply finalScore_floor; [exact L|].
  assert (L0 : inject_Z 0 <= calculatedScore arch s w) by exact L.
  pose proof (floor_half_between _ _ _ L0 U) as B.
  unfold goint.in_range, goint.min_int, goint.max_int.
  apply andb_true_intro. split; apply Z.leb_le; lia.
Qed.

Lemma finalScore_mono (w1 w2 : Z) :
  (0 < w1 <= w2)%Z -> (w2 < t)%Z ->
  (finalScore arch s w1 <= finalScore arch s w2)%Z.
Proof.
  intros H1 H2. fold mx in H62.
  assert (Hint : (MaxScore (config s) <= goint.max_int)%Z)
    by (fold mx; unfold goint.max_int; lia).
  rewrite !finalScore_below by lia.
  apply Qfloor_resp_le.
  pose proof (calculatedScore_mono arch s Hvalid Hint w1 w2 H1 H2). lra.
Qed.

End Monotone.

(** ** Distance to the exact value *)

Section Accuracy.

Import float64 float64_facts.
Local Open Scope Q_scope.

Lemma inject_Z_minus (a b : Z) : inject_Z (a - b) = inject_Z a - inject_Z b.
Proof. unfold Z.sub. now rewrite inject_Z_plus, inject_Z_opp. Qed.

Lemma RN_close (x : Q) :
  0 <= x -> x - x * (1 # 9007199254740992) <= RN x <= x + x * (1 # 9007199254740992).
Proof.
  intros Hx. pose proof (RN_relative_error x Hx) as E.
  apply Qabs_Qle_condition in E.
  assert (U : 2 ^ (-53) == (1 # 9007199254740992)) by reflexivity.
  rewrite U in E. lra.
Qed.

(** A value within less than [1/(2d)] of a fraction [n/d] rounds like
    it, unless [n/d] is half-way between two integers; there it rounds
    to one of the two. *)
Lemma nearest_stable (x c eps : Q) (d n : Z) :
  (0 < d)%Z ->
  x * inject_Z d == inject_Z n ->
  eps * (2 * inject_Z d) < 1 ->
  x - eps <= c <= x + eps ->
  (~ x - inject_Z (Qfloor x) == 1 # 2 ->
   Qfloor (c + (1 # 2)) = Qfloor (x + (1 # 2)))
  /\ (x - inject_Z (Qfloor x) == 1 # 2 ->
      Qfloor (c + (1 # 2)) = Qfloor (x + (1 # 2))
      \/ Qfloor (c + (1 # 2)) = (Qfloor (x + (1 # 2)) - 1)%Z).
Proof.
  intros Hd Hx He Hc.
  set (f := Qfloor x). pose proof (floor_bounds x) as [F1 F2]. fold f in F1, F2.
  set (D := inject_Z d) in *.
  assert (HD : 1 <= D) by (unfold D; change 1 with (inject_Z 1); rewrite <- Zle_Qle; lia).
  set (h := / (2 * D)).
  assert (Hh : h * (2 * D) == 1) by (unfold h; field; lra).
  assert (Hh0 : 0 < h) by (unfold h; apply Qinv_lt_0_compat; lra).
  assert (Heh : eps < h).
  { apply (Qmult_lt_r _ _ (2 * D)); [lra|]. now rewrite Hh. }
  assert (Hh2 : h <= 1 # 2).
  { apply (Qmult_le_r _ _ (2 * D)); [lra|]. rewrite Hh. lra. }
  (* the fractional part of [x], scaled by [2d], is the integer [J] *)
  set (J := (2 * n - 2 * f * d)%Z).
  assert (HJ : (x - inject_Z f) * (2 * D) == inject_Z J).
  { unfold J. rewrite inject_Z_minus, !inject_Z_mult. fold D.
    change (inject_Z 2) with 2. rewrite <- Hx. ring. }
  split.
  - intros NT.
    destruct (Z.lt_trichotomy J d) as [Lt | [Eq | Gt]].
    + (* below the half: both round down to [f] *)
      assert (B : x - inject_Z f <= (1 # 2) - h).
      { apply (Qmult_le_r _ _ (2 * D)); [lra|]. rewrite HJ.
        setoid_replace (((1 # 2) - h) * (2 * D)) with (D - 1)
          by (rewrite <- Hh; ring).
        unfold D. change 1 with (inject_Z 1). rewrite <- inject_Z_minus, <- Zle_Qle. lia. }
      rewrite (Qfloor_unique (c + (1 # 2)) f) by lra.
      rewrite (Qfloor_unique (x + (1 # 2)) f) by lra. reflexivity.
    + exfalso. apply NT. apply (Qmult_inj_r _ _ (2 * D)); [lra|].
      rewrite HJ, Eq. fold D. ring.
    + assert (B : (1 # 2) + h <= x - inject_Z f).
      { apply (Qmult_le_r _ _ (2 * D)); [lra|]. rewrite HJ.
        setoid_replace (((1 # 2) + h) * (2 * D)) with (D + 1)
          by (rewrite <- Hh; ring).
        unfold D. change 1 with (inject_Z 1). rewrite <- inject_Z_plus, <- Zle_Qle. lia. }
      rewrite (Qfloor_unique (c + (1 # 2)) (f + 1)%Z)
        by (rewrite inject_Z_plus; change (inject_Z 1) with 1; lra).
      rewrite (Qfloor_unique (x + (1 # 2)) (f + 1)%Z)
        by (rewrite inject_Z_plus; change (inject_Z 1) with 1; lra).
      reflexivity.
  - intros T.
    rewrite (Qfloor_unique (x + (1 # 2)) (f + 1)%Z)
      by (rewrite inject_Z_plus; change (inject_Z 1) with 1; lra).
    destruct (Qlt_le_dec c x) as [L | G].
    + right. replace (f + 1 - 1)%Z with f by lia.
      apply Qfloor_unique. lra.
    + left. apply Qfloor_unique.
      rewrite inject_Z_plus; change (inject_Z 1) with 1; lra.
Qed.

(** At a value half-way between two integers the side decides: a nearby
    value that is not below it rounds up with it, one below it rounds
    down. *)
Lemma nearest_tie (x c eps : Q) (d : Z) :
  (0 < d)%Z ->
  eps * (2 * inject_Z d) < 1 ->
  x - eps <= c <= x + eps ->
  x - inject_Z (Qfloor x) == 1 # 2 ->
  (x <= c -> Qfloor (c + (1 # 2)) = Qfloor (x + (1 # 2)))
  /\ (c < x -> Qfloor (c + (1 # 2)) = (Qfloor (x + (1 # 2)) - 1)%Z).
Proof.
  intros Hd He Hc T.
  set (f := Qfloor x) in *.
  set (D := inject_Z d) in *.
  assert (HD : 1 <= D) by (unfold D; change 1 with (inject_Z 1); rewrite <- Zle_Qle; lia).
  assert (Heps : eps < 1 # 2).
  { apply (Qmult_lt_r _ _ (2 * D)); [lra|].
    apply Qlt_le_trans with 1; [assumption | lra]. }
  rewrite (Qfloor_unique (x + (1 # 2)) (f + 1)%Z)
    by (rewrite inject_Z_plus; change (inject_Z 1) with 1; lra).
  split.
  - intros G. apply Qfloor_unique.
    rewrite inject_Z_plus; change (inject_Z 1) with 1; lra.
  - intros L. replace (f + 1 - 1)%Z with f by lia.
    apply Qfloor_unique. lra.
Qed.

Variable arch : Arch.
Variable s : WordScorer.
Hypothesis Hvalid : spec.valid (config s) = true.

Let mn := MinScore (config s).
Let mx := MaxScore (config s).
Let t := ThresholdWordsForMaxScore (config s).

Hypothesis Hprod : (mx * t <= 2 ^ 50)%Z.

Variable w : Z.
Hypothesis Hw : (0 < w < t)%Z.

Lemma accuracy_bounds : (mx <= 2 ^ 49)%Z /\ (0 < mx -> t <= 2 ^ 50)%Z.
Proof.
  destruct (valid_inv _ Hvalid) as (V1 & V2 & V3).
  fold mn in V1. fold mn mx in V2. fold t in V3. split; [nia|]. intros P. nia.
Qed.

(** [progress] is within [2^-53] of [wordCount / threshold]. *)
Lemma progress_close :
  (t <= 2 ^ 53)%Z ->
  inject_Z w / inject_Z t - (1 # 9007199254740992)
  <= div (of_int w) (of_int t)
  <= inject_Z w / inject_Z t + (1 # 9007199254740992).
Proof.
  intros Ht. unfold div.
  rewrite (of_int_exact w), (of_int_exact t) by lia.
  assert (T0 : 0 < inject_Z t) by (change 0 with (inject_Z 0); rewrite <- Zlt_Qlt; lia).
  assert (W0 : 0 <= inject_Z w) by (apply inject_Z_nonneg; lia).
  assert (WT : inject_Z w <= inject_Z t) by (rewrite <- Zle_Qle; lia).
  assert (P0 : 0 <= inject_Z w / inject_Z t) by (apply Qle_shift_div_l; lra).
  assert (P1 : inject_Z w / inject_Z t <= 1) by (apply Qle_shift_div_r; lra).
  pose proof (RN_close _ P0). lra.
Qed.

(** The computed value is within [3 * maxScore * 2^-53] of the exact one.  *)
Lemma calculatedScore_close :
  spec.raw (config s) w - 3 * inject_Z mx * (1 # 9007199254740992)
  <= calculatedScore arch s w
  <= spec.raw (config s) w + 3 * inject_Z mx * (1 # 9007199254740992).
Proof.
  destruct (valid_inv _ Hvalid) as (V1 & V2 & V3).
  fold mn in V1. fold mn mx in V2. fold t in V3.
  destruct accuracy_bounds as [B49 Bt].
  assert (Hint : (MaxScore (config s) <= goint.max_int)%Z)
    by (fold mx; unfold goint.max_int; lia).
  unfold calculatedScore, spec.raw. rewrite scoreRange_eq by assumption.
  fold mn mx t.
  assert (Emn : of_int mn == inject_Z mn) by (apply of_int_exact; lia).
  assert (Er : of_int (mx - mn) == inject_Z (mx - mn)) by (apply of_int_exact; lia).
  pose proof (progress_bounds w t Hw) as [p0 p1].
  set (p := div (of_int w) (of_int t)) in *.
  set (P := inject_Z w / inject_Z t).
  set (r := inject_Z (mx - mn)) in *.
  set (m := inject_Z mn) in *.
  assert (R0 : 0 <= r) by (apply inject_Z_nonneg; lia).
  assert (M0 : 0 <= m) by (apply inject_Z_nonneg; lia).
  assert (MX : inject_Z mx == m + r).
  { unfold m, r. rewrite <- inject_Z_plus. now replace (mn + (mx - mn))%Z with mx by lia. }
  assert (A : P * r - (1 # 9007199254740992) * r <= p * r <= P * r + (1 # 9007199254740992) * r).
  { destruct (Z.eq_dec (mx - mn) 0) as [Z0 | NZ].
    - unfold r. rewrite Z0. change (inject_Z 0) with 0. lra.
    - assert (Ht : (t <= 2 ^ 53)%Z) by lia.
      pose proof (progress_close Ht) as [C1 C2]. fold p P in C1, C2.
      split.
      + setoid_replace (P * r - (1 # 9007199254740992) * r) with ((P - (1 # 9007199254740992)) * r) by ring.
        now apply Qmult_le_compat_r.
      + setoid_replace (P * r + (1 # 9007199254740992) * r) with ((P + (1 # 9007199254740992)) * r) by ring.
        now apply Qmult_le_compat_r. }
  assert (PR0 : 0 <= p * r) by (apply Qmult_le_0_compat; assumption).
  assert (PR1 : p * r <= r).
  { rewrite <- (Qmult_1_l r) at 2. now apply Qmult_le_compat_r. }
  rewrite MX. unfold add_mul, fma, add, mul.
  destruct (fuses_multiply_add arch).
  - rewrite Emn, Er. fold m r.
    assert (S0 : 0 <= p * r + m) by lra.
    pose proof (RN_close _ S0). lra.
  - rewrite Emn, Er. fold m r.
    pose proof (RN_close _ PR0) as [Q1 Q2].
    assert (Q3 : RN (p * r) <= r).
    { assert (Rr : RN r == r) by (apply RN_int; lia).
      apply Qle_trans with (RN r); [now apply RN_mono | rewrite Rr; apply Qle_refl]. }
    pose proof (RN_nonneg _ PR0) as Q0.
    assert (S0 : 0 <= m + RN (p * r)) by lra.
    pose proof (RN_close _ S0). lra.
Qed.

End Accuracy.

Section Results.

Import float64 float64_facts.
Local Open Scope Q_scope.

Lemma raw_nonneg (c : WordScorerConfig) (w : Z) :
  spec.valid c = true -> (0 <= w)%Z -> 0 <= spec.raw c w.
Proof.
  intros Hv Hw. destruct (valid_inv _ Hv) as (V1 & V2 & V3). unfold spec.raw.
  pose proof (inject_Z_nonneg _ V1).
  assert (0 <= inject_Z (MaxScore c - MinScore c)) by (apply inject_Z_nonneg; lia).
  assert (0 < inject_Z (ThresholdWordsForMaxScore c))
    by (change 0 with (inject_Z 0); rewrite <- Zlt_Qlt; lia).
  assert (0 <= inject_Z w / inject_Z (ThresholdWordsForMaxScore c)).
  { apply Qle_shift_div_l; [assumption|]. pose proof (inject_Z_nonneg _ Hw). lra. }
  assert (0 <= inject_Z w / inject_Z (ThresholdWordsForMaxScore c)
               * inject_Z (MaxScore c - MinScore c))
    by (apply Qmult_le_0_compat; assumption).
  lra.
Qed.

Lemma raw_fraction (c : WordScorerConfig) (w : Z) :
  (0 < ThresholdWordsForMaxScore c)%Z ->
  spec.raw c w * inject_Z (ThresholdWordsForMaxScore c)
  == inject_Z (MinScore c * ThresholdWordsForMaxScore c + w * (MaxScore c - MinScore c)).
Proof.
  intros Ht. unfold spec.raw. rewrite inject_Z_plus, !inject_Z_mult.
  assert (0 < inject_Z (ThresholdWordsForMaxScore c))
    by (change 0 with (inject_Z 0); rewrite <- Zlt_Qlt; lia).
  field. lra.
Qed.

Lemma interpolation_accuracy (arch : Arch) (s : WordScorer) (text : string) :
  spec.valid (config s) = true ->
  (MaxScore (config s) * ThresholdWordsForMaxScore (config s) <= 2 ^ 50)%Z ->
  (0 < CountWords s text < ThresholdWordsForMaxScore (config s))%Z ->
  let x := spec.raw (config s) (CountWords s text) in
  (spec.tie x = false -> CalculateScore arch s text = spec.round x)
  /\ (spec.tie x = true ->
      CalculateScore arch s text = spec.round x
      \/ CalculateScore arch s text = (spec.round x - 1)%Z).
Proof.
  intros Hv Hp Hw x. destruct (valid_inv _ Hv) as (V1 & V2 & V3).
  destruct (accuracy_bounds s Hv Hp _ Hw) as [B49 _].
  assert (H53 : (MaxScore (config s) <= 2 ^ 53)%Z) by lia.
  destruct (finalScore_window arch s Hv _ H53 Hw) as [Ef Wf].
  rewrite (CalculateScore_interior arch s text Hw Wf), Ef.
  assert (X0 : 0 <= x) by (apply raw_nonneg; [assumption | lia]).
  assert (Rx : spec.round x = Qfloor (x + (1 # 2))).
  { unfold spec.round. apply Qle_bool_iff in X0. now rewrite X0. }
  rewrite Rx.
  pose proof (calculatedScore_close arch s Hv Hp _ Hw) as C. fold x in C.
  set (eps := 3 * inject_Z (MaxScore (config s)) * (1 # 9007199254740992)) in *.
  assert (He : eps * (2 * inject_Z (ThresholdWordsForMaxScore (config s))) < 1).
  { assert (Q : inject_Z (MaxScore (config s)) * inject_Z (ThresholdWordsForMaxScore (config s))
                <= inject_Z (2 ^ 50)).
    { rewrite <- inject_Z_mult, <- Zle_Qle. exact Hp. }
    assert (E50 : inject_Z (2 ^ 50) == 1125899906842624) by reflexivity.
    rewrite E50 in Q. unfold eps. lra. }
  destruct (nearest_stable x _ eps _ _ V3 (raw_fraction _ _ V3) He C) as [NT T].
  split.
  - intros Ht. apply NT. unfold spec.tie in Ht. now apply Qeq_bool_neq.
  - intros Ht. apply T. unfold spec.tie in Ht. now apply Qeq_bool_iff.
Qed.

(** The same at a tie, with the side the binary64 value falls on. *)
Lemma interpolation_tie (arch : Arch) (s : WordScorer) (text : string) :
  spec.valid (config s) = true ->
  (MaxScore (config s) * ThresholdWordsForMaxScore (config s) <= 2 ^ 50)%Z ->
  (0 < CountWords s text < ThresholdWordsForMaxScore (config s))%Z ->
  let x := spec.raw (config s) (CountWords s text) in
  let c := calculatedScore arch s (CountWords s text) in
  spec.tie x = true ->
  CalculateScore arch s text
  = if Qle_bool x c then spec.round x else (spec.round x - 1)%Z.
Proof.
  intros Hv Hp Hw x c Ht. destruct (valid_inv _ Hv) as (V1 & V2 & V3).
  assert (H53 : (MaxScore (config s) <= 2 ^ 53)%Z) by lia.
  destruct (finalScore_window arch s Hv _ H53 Hw) as [Ef Wf].
  rewrite (CalculateScore_interior arch s text Hw Wf), Ef.
  assert (X0 : 0 <= x) by (apply raw_nonneg; [assumption | lia]).
  assert (Rx : spec.round x = Qfloor (x + (1 # 2))).
  { unfold spec.round. apply Qle_bool_iff in X0. now rewrite X0. }
  rewrite Rx.
  pose proof (calculatedScore_close arch s Hv Hp _ Hw) as C. fold x c in C.
  set (eps := 3 * inject_Z (MaxScore (config s)) * (1 # 9007199254740992)) in *.
  assert (He : eps * (2 * inject_Z (ThresholdWordsForMaxScore (config s))) < 1).
  { assert (Q : inject_Z (MaxScore (config s)) * inject_Z (ThresholdWordsForMaxScore (config s))
                <= inject_Z (2 ^ 50)).
    { rewrite <- inject_Z_mult, <- Zle_Qle. exact Hp. }
    assert (E50 : inject_Z (2 ^ 50) == 1125899906842624) by reflexivity.
    rewrite E50 in Q. unfold eps. lra. }
  assert (T : x - inject_Z (Qfloor x) == 1 # 2)
    by (unfold spec.tie in Ht; now apply Qeq_bool_iff).
  destruct (nearest_tie x c eps _ V3 He C T) as [Up Down].
  fold c. destruct (Qle_bool x c) eqn:B.
  - apply Up. now apply Qle_bool_iff.
  - apply Down. apply Qnot_le_lt. intros G. apply Qle_bool_iff in G. congruence.
Qed.

End Results.

(* ===================================================================== *)
(** * The interpolated score *)
(* ===================================================================== *)

(** C2, as the specification words it, fails: with [MinScore = 0],
    [MaxScore = 45] and a threshold of 10, seven words give the exact
    value 31.5, which rounds to 32, whereas binary64 arithmetic yields
    31.499999999999996 and the score 31, with or without fusion. *)
Lemma interpolation_tie_counterexample :
  let s := mkScorer 0 45 10 in
  let text := "a b c d e f g" in
  spec.valid (config s) = true
  /\ 0 < CountWords s text < ThresholdWordsForMaxScore (config s)
  /\ spec.round (spec.raw (config s) (CountWords s text)) = 32
  /\ CalculateScore amd64 s text = 31
  /\ CalculateScore arm64 s text = 31
  /\ CalculateScore amd64 s text <> spec.round (spec.raw (config s) (CountWords s text))
  /\ CalculateScore arm64 s text <> spec.round (spec.raw (config s) (CountWords s text)).
Proof. vm_compute. repeat split; try reflexivity; discriminate. Qed.

(** Beyond the bound of the amended claim the rounding errors of binary64
    show even when the exact value is not half-way between two integers:
    with [MaxScore = 1039030971406148] and a threshold of 5 (a product
    just above [2^52]) four words give the exact value
    831224777124918.4 and the score 831224777124919. *)
Lemma interpolation_magnitude_counterexample :
  let s := mkScorer 0 1039030971406148 5 in
  let text := "a b c d" in
  spec.valid (config s) = true
  /\ 0 < CountWords s text < ThresholdWordsForMaxScore (config s)
  /\ spec.tie (spec.raw (config s) (CountWords s text)) = false
  /\ spec.round (spec.raw (config s) (CountWords s text)) = 831224777124918
  /\ CalculateScore amd64 s text = 831224777124919
  /\ CalculateScore arm64 s text = 831224777124919.
Proof. vm_compute. repeat split; reflexivity. Qed.

(** C2, amended.  For a valid configuration with
    [MaxScore * threshold <= 2^50] and a text of [w] words,
    [0 < w < threshold], let [x = MinScore + (w / threshold) * (MaxScore -
    MinScore)] be the exact value and [c] the binary64 value the code
    computes for it.  When [x] is not half-way between two integers the
    score is [x] rounded to the nearest integer.  When it is, the score
    is [x] rounded away from zero if [c] is not below [x] (so whenever
    the binary64 evaluation is exact), and one less if [c] is below [x].
    With the configuration of [main] every text of 25 words scores 30. *)
Theorem CalculateScore_interpolation :
  (forall arch s text,
      spec.valid (config s) = true ->
      MaxScore (config s) * ThresholdWordsForMaxScore (config s) <= 2 ^ 50 ->
      0 < CountWords s text < ThresholdWordsForMaxScore (config s) ->
      let x := spec.raw (config s) (CountWords s text) in
      let c := calculatedScore arch s (CountWords s text) in
      (spec.tie x = false -> CalculateScore arch s text = spec.round x)
      /\ (spec.tie x = true ->
          CalculateScore arch s text
          = if Qle_bool x c then spec.round x else spec.round x - 1))
  /\ (forall arch text,
      CountWords appScorer text = 25 ->
      CalculateScore arch appScorer text = 30).
Proof.
  split.
  - intros arch s text Hv Hp Hw x c. split.
    + exact (proj1 (interpolation_accuracy arch s text Hv Hp Hw)).
    + exact (interpolation_tie arch s text Hv Hp Hw).
  - intros arch text Hw.
    destruct (interpolation_accuracy arch appScorer text) as [NT _].
    + reflexivity.
    + vm_compute. discriminate.
    + rewrite Hw. simpl. lia.
    + rewrite Hw in NT. apply NT. reflexivity.
Qed.

Lemma CalculateScore_interpolation_witness :
  (spec.valid (config appScorer) = true
   /\ MaxScore (config appScorer) * ThresholdWordsForMaxScore (config appScorer) <= 2 ^ 50
   /\ 0 < CountWords appScorer "hello world" < ThresholdWordsForMaxScore (config appScorer)
   /\ spec.tie (spec.raw (config appScorer) (CountWords appScorer "hello world")) = false
   /\ CalculateScore amd64 appScorer "hello world"
      = spec.round (spec.raw (config appScorer) (CountWords appScorer "hello world")))
  /\ (let s := mkScorer 0 5 2 in
      spec.valid (config s) = true
      /\ MaxScore (config s) * ThresholdWordsForMaxScore (config s) <= 2 ^ 50
      /\ 0 < CountWords s "w" < ThresholdWordsForMaxScore (config s)
      /\ spec.tie (spec.raw (config s) (CountWords s "w")) = true
      /\ spec.round (spec.raw (config s) (CountWords s "w")) = 3
      /\ CalculateScore amd64 s "w" = 3)
  /\ (let s := mkScorer 0 45 10 in
      spec.tie (spec.raw (config s) (CountWords s "a b c d e f g")) = true
      /\ spec.round (spec.raw (config s) (CountWords s "a b c d e f g")) = 32
      /\ CalculateScore amd64 s "a b c d e f g" = 31)
  /\ (CountWords appScorer (words 25) = 25
      /\ CalculateScore arm64 appScorer (words 25) = 30).
Proof.
  split; [|split; [|split]].
  - split; [reflexivity|]. split; [vm_compute; discriminate|].
    split; [split; reflexivity|]. split; [reflexivity|].
    apply (proj1 (proj1 CalculateScore_interpolation amd64 appScorer "hello world"
                        eq_refl ltac:(vm_compute; discriminate)
                        (conj eq_refl eq_refl))).
    reflexivity.
  - cbv zeta. split; [reflexivity|]. split; [vm_compute; discriminate|].
    split; [split; reflexivity|]. split; [reflexivity|]. split; [reflexivity|].
    rewrite (proj2 (proj1 CalculateScore_interpolation amd64 (mkScorer 0 5 2) "w"
                          eq_refl ltac:(vm_compute; discriminate)
                          (conj eq_refl eq_refl)) eq_refl).
    reflexivity.
  - cbv zeta. split; [reflexivity|]. split; [reflexivity|].
    rewrite (proj2 (proj1 CalculateScore_interpolation amd64 (mkScorer 0 45 10)
                          "a b c d e f g"
                          eq_refl ltac:(vm_compute; discriminate)
                          (conj eq_refl eq_refl)) eq_refl).
    reflexivity.
  - split; [reflexivity|].
    apply (proj2 CalculateScore_interpolation arm64 (words 25)). reflexivity.
Defined.

(** C4, as stated, fails: with [MinScore = MaxScore = 2^53 + 1], which
    binary64 cannot represent, the rounded value of a one-word text under a
    threshold of 2 is [2^53], below [MinScore]; the first clamp is taken
    and changes the result. *)
Lemma clamp_reached_counterexample :
  let s := mkScorer (2 ^ 53 + 1) (2 ^ 53 + 1) 2 in
  spec.valid (config s) = true
  /\ 0 < CountWords s "w" < ThresholdWordsForMaxScore (config s)
  /\ finalScore amd64 s (CountWords s "w") = 2 ^ 53
  /\ finalScore arm64 s (CountWords s "w") = 2 ^ 53
  /\ (finalScore amd64 s (CountWords s "w") <? MinScore (config s)) = true
  /\ CalculateScore amd64 s "w" <> finalScore amd64 s (CountWords s "w").
Proof. vm_compute. repeat split; try reflexivity. discriminate. Qed.

(** C4, amended.  For a valid configuration with [MaxScore <= 2^53] and
    a text of [w] words, [0 < w < threshold], the rounded interpolated
    value lies between [MinScore] and [MaxScore]: neither clamp is taken
    and the score is that value. *)
Theorem clamp_unreachable (arch : Arch) (s : WordScorer) (text : string) :
  spec.valid (config s) = true ->
  MaxScore (config s) <= 2 ^ 53 ->
  0 < CountWords s text < ThresholdWordsForMaxScore (config s) ->
  (finalScore arch s (CountWords s text) <? MinScore (config s)) = false
  /\ (finalScore arch s (CountWords s text) >? MaxScore (config s)) = false
  /\ CalculateScore arch s text = finalScore arch s (CountWords s text).
Proof.
  intros Hv H53 Hw.
  destruct (finalScore_window arch s Hv _ H53 Hw) as [_ Wf].
  split; [lia|]. split; [lia|]. now apply CalculateScore_interior.
Qed.

Lemma clamp_unreachable_witness :
  spec.valid (config appScorer) = true
  /\ MaxScore (config appScorer) <= 2 ^ 53
  /\ 0 < CountWords appScorer "hello world" < ThresholdWordsForMaxScore (config appScorer)
  /\ ((finalScore amd64 appScorer (CountWords appScorer "hello world")
       <? MinScore (config appScorer)) = false
      /\ (finalScore amd64 appScorer (CountWords appScorer "hello world")
          >? MaxScore (config appScorer)) = false
      /\ CalculateScore amd64 appScorer "hello world"
         = finalScore amd64 appScorer (CountWords appScorer "hello world")).
Proof.
  split; [reflexivity|]. split; [vm_compute; discriminate|].
  split; [split; reflexivity|].
  apply (clamp_unreachable amd64 appScorer "hello world");
    [reflexivity | vm_compute; discriminate | split; reflexivity].
Defined.

(* ===================================================================== *)
(** * Monotonicity *)
(* ===================================================================== *)

(** C10, as stated, fails on amd64: with [MinScore = 2^63 - 1025],
    [MaxScore = 2^63 - 1] and a threshold of 4, one word scores
    [2^63 - 1024]; for two words the interpolated value rounds to [2^63],
    which [int] cannot hold, the conversion answers [-2^63] and the clamp
    returns [MinScore]. *)
Lemma monotone_counterexample_amd64 :
  let s := mkScorer (2 ^ 63 - 1025) (2 ^ 63 - 1) 4 in
  spec.valid (config s) = true
  /\ CountWords s "a" <= CountWords s "a b"
  /\ CalculateScore amd64 s "a" = 2 ^ 63 - 1024
  /\ CalculateScore amd64 s "a b" = 2 ^ 63 - 1025
  /\ ~ CalculateScore amd64 s "a" <= CalculateScore amd64 s "a b".
Proof.
  vm_compute. repeat split; try reflexivity; try discriminate.
  intros H. apply H. reflexivity.
Qed.

Lemma clamp_mono (mn mx v1 v2 : Z) :
  mn <= mx -> v1 <= v2 ->
  (if v1 <? mn then mn else if v1 >? mx then mx else v1)
  <= (if v2 <? mn then mn else if v2 >? mx then mx else v2).
Proof.
  intros Hm Hv.
  destruct (v1 <? mn) eqn:A1; destruct (v1 >? mx) eqn:B1;
    destruct (v2 <? mn) eqn:A2; destruct (v2 >? mx) eqn:B2; lia.
Qed.

(** C10, amended.  For a valid configuration with [MaxScore <= 2^62],
    on every target, a text with no more words than another scores no
    more than it. *)
Theorem CalculateScore_monotone (arch : Arch) (s : WordScorer) (text1 text2 : string) :
  spec.valid (config s) = true ->
  MaxScore (config s) <= 2 ^ 62 ->
  CountWords s text1 <= CountWords s text2 ->
  CalculateScore arch s text1 <= CalculateScore arch s text2.
Proof.
  intros Hv H62 Hw.
  pose proof (score_range arch s text1 Hv) as R1.
  pose proof (score_range arch s text2 Hv) as R2.
  pose proof (CountWords_nonneg s text1) as N1.
  destruct (valid_inv _ Hv) as (V1 & V2 & V3).
  unfold CalculateScore in *.
  destruct (CountWords s text1 =? 0) eqn:Z1; [lia|].
  destruct (CountWords s text2 =? 0) eqn:Z2; [lia|].
  destruct (CountWords s text2 >=? ThresholdWordsForMaxScore (config s)) eqn:T2; [lia|].
  destruct (CountWords s text1 >=? ThresholdWordsForMaxScore (config s)) eqn:T1; [lia|].
  apply clamp_mono; [lia|].
  apply (finalScore_mono arch s Hv H62); lia.
Qed.

Lemma CalculateScore_monotone_witness :
  spec.valid (config appScorer) = true
  /\ MaxScore (config appScorer) <= 2 ^ 62
  /\ CountWords appScorer "hello" <= CountWords appScorer "hello world"
  /\ CalculateScore amd64 appScorer "hello" <= CalculateScore amd64 appScorer "hello world".
Proof.
  split; [reflexivity|]. split; [vm_compute; discriminate|].
  split; [vm_compute; discriminate|].
  apply (CalculateScore_monotone amd64 appScorer "hello" "hello world");
    [reflexivity | vm_compute; discriminate | vm_compute; discriminate].
Defined.

(* ===================================================================== *)
(** * The handler *)
(* ===================================================================== *)







(* ===================================================================== *)
(** * Further properties: texts *)
(* ===================================================================== *)

Section TextFacts.

Lemma byte_val_range (c : ascii) : 0 <= byte_val c < 256.
Proof.
  unfold byte_val. pose proof (N_ascii_bounded c) as H. lia.
Qed.

(** The second byte of a sequence is never below 128. *)
Lemma lead_range (b0 : Z) (sz : nat) (lo hi : Z) :
  utf8.lead b0 = Some (sz, (lo, hi)) -> 128 <= lo /\ (2 <= sz <= 4)%nat.
Proof.
  unfold utf8.lead.
  repeat match goal with
         | |- context [if ?b then _ else _] => destruct b
         end; intros H; inversion H; subst; lia.
Qed.

Lemma lead_ascii (b0 : Z) : 0 <= b0 < 128 -> utf8.lead b0 = None.
Proof.
  intros H. unfold utf8.lead.
  repeat match goal with
         | |- context [if ?b then _ else _] => destruct b eqn:?
         end; try reflexivity; lia.
Qed.

(** A rune spans at most four bytes, all of them present. *)
Lemma DecodeRune_width (b0 : Z) (l : list Z) :
  (1 <= snd (utf8.DecodeRune b0 l) <= 4)%nat
  /\ (pred (snd (utf8.DecodeRune b0 l)) <= List.length l)%nat.
Proof.
  unfold utf8.DecodeRune.
  destruct (utf8.lead b0) as [[sz [lo hi]]|];
    [|destruct (b0 <? 128); simpl; lia].
  destruct l as [|b1 [|b2 [|b3 l]]]; simpl;
    repeat match goal with
           | |- context [if ?b then _ else _] => destruct b
           end; simpl; lia.
Qed.

(** A byte below 128 that follows cannot be taken for a continuation. *)
Lemma DecodeRune_app (b0 sep : Z) (l l' : list Z) :
  sep < 128 ->
  utf8.DecodeRune b0 (l ++ sep :: l') = utf8.DecodeRune b0 l.
Proof.
  intros Hsep. unfold utf8.DecodeRune.
  destruct (utf8.lead b0) as [[sz [lo hi]]|] eqn:Hl; [|reflexivity].
  destruct (lead_range _ _ _ _ Hl) as [Hlo _].
  assert (C : utf8.continuation sep = false).
  { unfold utf8.continuation. apply andb_false_intro1. lia. }
  assert (B : (sep <? lo) = true) by lia.
  destruct l as [|b1 [|b2 [|b3 l]]]; simpl; rewrite ?B, ?C; simpl;
    repeat match goal with
           | |- context [if ?b then _ else _] => destruct b
           end; reflexivity.
Qed.

Lemma substring_app (n : nat) (s t : string) :
  (n <= String.length s)%nat ->
  substring 0 n (s ++ t)%string = substring 0 n s.
Proof.
  revert n. induction s as [|c s IH]; intros n H; simpl in *.
  - replace n with 0%nat by lia. now destruct t.
  - destruct n as [|n]; [reflexivity|]. simpl. f_equal. apply IH. lia.
Qed.

Lemma list_ascii_of_string_app (s t : string) :
  list_ascii_of_string (s ++ t)%string
  = list_ascii_of_string s ++ list_ascii_of_string t.
Proof. induction s as [|c s IH]; simpl; [reflexivity | now rewrite IH]. Qed.

Lemma list_ascii_of_string_length (s : string) :
  List.length (list_ascii_of_string s) = String.length s.
Proof. induction s as [|c s IH]; simpl; [reflexivity | now rewrite IH]. Qed.

(** The runes of a text followed by a byte below 128 and another text. *)
Lemma range_from_app (a b : string) (c : ascii) (skip : nat) :
  byte_val c < 128 -> (skip <= String.length a)%nat ->
  utf8.range_from skip (a ++ String c b)%string
  = utf8.range_from skip a ++ utf8.range_from 0 (String c b).
Proof.
  intros Hc. revert skip. induction a as [|x a IH]; intros skip Hs.
  - simpl in Hs. replace skip with 0%nat by lia. reflexivity.
  - cbn [append utf8.range_from]. destruct skip as [|k].
    + rewrite list_ascii_of_string_app. cbn [list_ascii_of_string].
      rewrite map_app. cbn [map]. rewrite (DecodeRune_app _ _ _ _ Hc).
      pose proof (DecodeRune_width (byte_val x) (map byte_val (list_ascii_of_string a)))
        as [[W1 W2] W3].
      rewrite length_map, list_ascii_of_string_length in W3.
      destruct (utf8.DecodeRune (byte_val x) (map byte_val (list_ascii_of_string a)))
        as [r w]. cbn [snd] in *.
      change (String x (a ++ String c b)%string) with (String x a ++ String c b)%string.
      rewrite substring_app by (simpl; lia).
      rewrite IH by lia. reflexivity.
    + apply IH. simpl in Hs. lia.
Qed.

Lemma range_ascii (c : ascii) (b : string) :
  byte_val c < 128 ->
  utf8.range_from 0 (String c b) = (byte_val c, String c "") :: utf8.range b.
Proof.
  intros Hc. pose proof (byte_val_range c) as R.
  cbn [utf8.range_from]. unfold utf8.DecodeRune.
  rewrite lead_ascii by lia. replace (byte_val c <? 128) with true by lia.
  cbn [pred]. destruct b; reflexivity.
Qed.

Lemma FieldsFunc_loop_app (f : rune -> bool) (r : rune) (bytes : string)
      (ra rb : list (rune * string)) (cur : option string) :
  f r = true ->
  strings.FieldsFunc_loop f cur (ra ++ (r, bytes) :: rb)
  = strings.FieldsFunc_loop f cur ra ++ strings.FieldsFunc_loop f None rb.
Proof.
  intros Hr. revert cur. induction ra as [|[r' b'] ra IH]; intros cur; simpl.
  - rewrite Hr. now destruct cur.
  - destruct (f r'); destruct cur; simpl; now rewrite IH.
Qed.

(** An ASCII white space character between two texts separates their
    fields. *)
Lemma Fields_app (a b : string) (c : ascii) :
  byte_val c < 128 -> unicode.IsSpace (byte_val c) = true ->
  strings.Fields (a ++ String c b)%string = strings.Fields a ++ strings.Fields b.
Proof.
  intros Hc Hsp. unfold strings.Fields, strings.FieldsFunc, utf8.range.
  rewrite range_from_app by (assumption || lia).
  rewrite range_ascii by assumption.
  now apply FieldsFunc_loop_app.
Qed.

Lemma range_from_length (skip : nat) (s : string) :
  (List.length (utf8.range_from skip s) <= String.length s)%nat.
Proof.
  revert skip. induction s as [|c s IH]; intros skip; simpl; [lia|].
  destruct skip as [|k].
  - destruct (utf8.DecodeRune _ _) as [r w]. simpl. specialize (IH (pred w)). lia.
  - specialize (IH k). lia.
Qed.

Lemma FieldsFunc_loop_bound (f : rune -> bool) (rs : list (rune * string)) :
  (2 * List.length (strings.FieldsFunc_loop f None rs) <= List.length rs + 1)%nat
  /\ (forall fld,
         2 * List.length (strings.FieldsFunc_loop f (Some fld) rs)
         <= List.length rs + 2)%nat.
Proof.
  induction rs as [|[r bytes] rest [IHn IHs]]; simpl.
  - split; [lia | intros; simpl; lia].
  - destruct (f r).
    + split; [lia | intros fld; simpl; lia].
    + split; [specialize (IHs bytes); lia | intros fld; specialize (IHs (fld ++ bytes)%string); lia].
Qed.

End TextFacts.

(** X1. The word count of two texts joined by an ASCII white space
    character (space, tab, line feed, ...) is the sum of their word
    counts. *)
Theorem CountWords_joined (s : WordScorer) (a b : string) (c : ascii) :
  byte_val c < 128 -> unicode.IsSpace (byte_val c) = true ->
  CountWords s (a ++ String c b)%string = CountWords s a + CountWords s b.
Proof.
  intros Hc Hsp. unfold CountWords, len.
  rewrite (Fields_app a b c Hc Hsp), length_app. lia.
Qed.

Lemma CountWords_joined_witness :
  byte_val " "%char < 128
  /\ unicode.IsSpace (byte_val " "%char) = true
  /\ CountWords appScorer ("hello world" ++ String " "%char "bonjour")%string
     = CountWords appScorer "hello world" + CountWords appScorer "bonjour".
Proof.
  split; [reflexivity|]. split; [reflexivity|].
  apply (CountWords_joined appScorer "hello world" "bonjour" " "%char); reflexivity.
Defined.

Lemma CountWords_padded (s : WordScorer) (text : string) (c : ascii) :
  byte_val c < 128 -> unicode.IsSpace (byte_val c) = true ->
  CountWords s (String c text) = CountWords s text
  /\ CountWords s (text ++ String c "")%string = CountWords s text.
Proof.
  intros Hc Hsp. unfold CountWords, len. split.
  - change (String c text) with ("" ++ String c text)%string.
    now rewrite (Fields_app "" text c Hc Hsp).
  - rewrite (Fields_app text "" c Hc Hsp), length_app. simpl. lia.
Qed.

Lemma CalculateScore_of_count (arch : Arch) (s : WordScorer) (text1 text2 : string) :
  CountWords s text1 = CountWords s text2 ->
  CalculateScore arch s text1 = CalculateScore arch s text2.
Proof. intros H. unfold CalculateScore. now rewrite H. Qed.

(** X2. An ASCII white space character put before or after a text
    changes neither its word count nor its score. *)
Theorem CalculateScore_ignores_padding (arch : Arch) (s : WordScorer)
        (text : string) (c : ascii) :
  byte_val c < 128 -> unicode.IsSpace (byte_val c) = true ->
  (CountWords s (String c text) = CountWords s text
   /\ CalculateScore arch s (String c text) = CalculateScore arch s text)
  /\ (CountWords s (text ++ String c "")%string = CountWords s text
      /\ CalculateScore arch s (text ++ String c "")%string = CalculateScore arch s text).
Proof.
  intros Hc Hsp. destruct (CountWords_padded s text c Hc Hsp) as [L R].
  split; (split; [assumption | now apply CalculateScore_of_count]).
Qed.

Lemma CalculateScore_ignores_padding_witness :
  byte_val "010"%char < 128
  /\ unicode.IsSpace (byte_val "010"%char) = true
  /\ CalculateScore amd64 appScorer ("hello world" ++ String "010"%char "")%string
     = CalculateScore amd64 appScorer "hello world".
Proof.
  split; [reflexivity|]. split; [reflexivity|].
  apply (CalculateScore_ignores_padding amd64 appScorer "hello world" "010"%char);
    reflexivity.
Defined.

(** X3. A text of [n] bytes has at most [(n + 1) / 2] words: twice the
    word count does not exceed the length plus one. *)
Theorem CountWords_at_most_half_length (s : WordScorer) (text : string) :
  0 <= CountWords s text
  /\ 2 * CountWords s text <= Z.of_nat (String.length text) + 1.
Proof.
  unfold CountWords, len, strings.Fields, strings.FieldsFunc, utf8.range.
  pose proof (proj1 (FieldsFunc_loop_bound unicode.IsSpace (utf8.range_from 0 text))) as B.
  pose proof (range_from_length 0 text) as L. lia.
Qed.

(* ===================================================================== *)
(** * Further properties: scores *)
(* ===================================================================== *)

Lemma main_table :
  forallb (fun w =>
             negb (spec.tie (spec.raw scorerConfig w))
             && (spec.round (spec.raw scorerConfig w) =? 20 + (4 * w + 5) / 10))
          (map Z.of_nat (seq 1 49)) = true.
Proof. vm_compute. reflexivity. Qed.

(** X4. With the configuration of [main], on every target, a text of
    [w] words scores [min (40, 20 + (4 w + 5) / 10)] in integer
    arithmetic, that is 20 plus [0.4 w] rounded to the nearest integer,
    capped at 40. *)
Theorem main_score_formula (arch : Arch) (text : string) :
  CalculateScore arch appScorer text
  = Z.min 40 (20 + (4 * CountWords appScorer text + 5) / 10).
Proof.
  pose proof (CountWords_nonneg appScorer text) as N.
  destruct (Z.eq_dec (CountWords appScorer text) 0) as [E0 | N0].
  - unfold CalculateScore. rewrite E0. reflexivity.
  - destruct (Z_lt_le_dec (CountWords appScorer text) 50) as [Lt | Ge].
    + assert (In (CountWords appScorer text) (map Z.of_nat (seq 1 49))) as I.
      { rewrite <- (Z2Nat.id (CountWords appScorer text)) by lia.
        apply in_map, in_seq. lia. }
      pose proof (proj1 (forallb_forall _ _) main_table _ I) as T.
      apply andb_prop in T as [T1 T2]. apply negb_true_iff in T1. apply Z.eqb_eq in T2.
      destruct (interpolation_accuracy arch appScorer text) as [NT _];
        [reflexivity | vm_compute; discriminate | simpl; lia |].
      rewrite (NT T1). change (config appScorer) with scorerConfig. rewrite T2.
      assert ((4 * CountWords appScorer text + 5) / 10 < 21)
        by (apply Z.div_lt_upper_bound; lia).
      lia.
    + unfold CalculateScore.
      replace (CountWords appScorer text =? 0) with false by lia.
      replace (CountWords appScorer text >=? ThresholdWordsForMaxScore (config appScorer))
        with true by (simpl; lia).
      assert (20 <= (4 * CountWords appScorer text + 5) / 10)
        by (apply Z.div_le_lower_bound; lia).
      change (MaxScore (config appScorer)) with 40. lia.
Qed.

(** X5. With a threshold of 1 or less (zero and negative thresholds
    included, as a scorer built without [NewWordScorer] may have), the
    interpolation is never reached: a text without words scores
    [MinScore] and every other text scores [MaxScore]. *)
Theorem CalculateScore_small_threshold (arch : Arch) (s : WordScorer) (text : string) :
  ThresholdWordsForMaxScore (config s) <= 1 ->
  CalculateScore arch s text
  = if CountWords s text =? 0 then MinScore (config s) else MaxScore (config s).
Proof.
  intros Ht. pose proof (CountWords_nonneg s text) as N. unfold CalculateScore.
  destruct (CountWords s text =? 0) eqn:E; [reflexivity|].
  replace (CountWords s text >=? ThresholdWordsForMaxScore (config s)) with true by lia.
  reflexivity.
Qed.

Lemma CalculateScore_small_threshold_witness :
  ThresholdWordsForMaxScore (config (mkScorer 3 9 0)) <= 1
  /\ CalculateScore amd64 (mkScorer 3 9 0) "hello" = 9.
Proof.
  split; [simpl; lia|].
  rewrite (CalculateScore_small_threshold amd64 (mkScorer 3 9 0) "hello"); [reflexivity|].
  simpl. lia.
Defined.

(* ===================================================================== *)
(** * Further properties: construction *)
(* ===================================================================== *)

(** X6. [NewWordScorer] returns a scorer exactly when the configuration
    satisfies the three invariants; the scorer then holds the
    configuration as given, the error is nil and nothing is logged. *)
Theorem NewWordScorer_scorer_iff_valid (c : WordScorerConfig) (l : log.Logger) :
  fst (fst (NewWordScorer c l)) = (if spec.valid c then Some {| config := c |} else None)
  /\ (spec.valid c = true ->
      snd (fst (NewWordScorer c l)) = None /\ snd (NewWordScorer c l) = l).
Proof.
  destruct (spec.valid c) eqn:V.
  - rewrite (NewWordScorer_valid c l V). auto.
  - pose proof (NewWordScorer_invalid c l V) as H. split; [|discriminate].
    destruct (NewWordScorer c l) as [[sc err] l']. simpl in *. congruence.
Qed.

Lemma NewWordScorer_scorer_iff_valid_witness :
  spec.valid scorerConfig = true
  /\ snd (fst (NewWordScorer scorerConfig stderr)) = None
  /\ snd (NewWordScorer scorerConfig stderr) = stderr.
Proof.
  split; [reflexivity|].
  apply (proj2 (NewWordScorer_scorer_iff_valid scorerConfig stderr)). reflexivity.
Defined.

(** X7. On a configuration that breaks an invariant, [NewWordScorer]
    writes one line to the log, the message of the first invariant broken
    in the order the checks are made (negative [MinScore], then
    [MaxScore] below [MinScore], then non-positive threshold), and the
    error it returns is the error of that write: nil when the write
    succeeds, the writer's error (and nothing logged) when it fails. *)
Theorem NewWordScorer_reports_first_violation (c : WordScorerConfig) (l : log.Logger) :
  spec.valid c = false ->
  let message :=
    if MinScore c <? 0 then "MinScore cannot be negative"
    else if MaxScore c <? MinScore c then "MaxScore cannot be less than MinScore"
    else "ThresholdWordsForMaxScore must be positive" in
  snd (fst (NewWordScorer c l)) = log.write_error l
  /\ snd (NewWordScorer c l)
     = match log.write_error l with
       | None => {| log.write_error := None; log.lines := log.lines l ++ [message] |}
       | Some _ => l
       end.
Proof.
  unfold spec.valid, NewWordScorer, log.Output. intros H.
  destruct (MinScore c <? 0) eqn:H1;
    [|destruct (MaxScore c <? MinScore c) eqn:H2;
      [|destruct (ThresholdWordsForMaxScore c <=? 0) eqn:H3]];
    try (destruct (log.write_error l); split; reflexivity).
  exfalso. revert H.
  replace (0 <=? MinScore c) with true by lia.
  replace (MinScore c <=? MaxScore c) with true by lia.
  replace (0 <? ThresholdWordsForMaxScore c) with true by lia.
  discriminate.
Qed.

Lemma NewWordScorer_reports_first_violation_witness :
  let c := {| MinScore := -1; MaxScore := -5; ThresholdWordsForMaxScore := 0 |} in
  spec.valid c = false
  /\ snd (NewWordScorer c stderr)
     = {| log.write_error := None; log.lines := ["MinScore cannot be negative"] |}.
Proof.
  split; [reflexivity|].
  apply (proj2 (NewWordScorer_reports_first_violation
                  {| MinScore := -1; MaxScore := -5; ThresholdWordsForMaxScore := 0 |}
                  stderr eq_refl)).
Defined.

(* ===================================================================== *)
(** * Further properties: the handler *)
(* ===================================================================== *)

(** The request [{"documentText": text}]. *)
Lemma bind_document (text : string) (req : ScoreRequest) :
  text <> "" ->
  gin.ShouldBindJSON (gin.Document (JObject [("documentText", JString text)])) req
  = ({| TextToScore := text |}, None).
Proof.
  intros H. unfold gin.ShouldBindJSON, encoding_json.Decode. simpl.
  unfold gin.validate. simpl.
  destruct (String.eqb_spec text ""); [contradiction | reflexivity].
Qed.

Lemma score_document (arch : Arch) (s : WordScorer) (text : string) (l : log.Logger) :
  text <> "" ->
  PostScore arch (NewScoreHandler (Some s))
            (gin.Document (JObject [("documentText", JString text)])) l
  = ({| gin.status := 200;
        gin.body := JObject [("wordCount", JNumber (CountWords s text));
                             ("score", JNumber (CalculateScore arch s text));
                             ("message", JString "Scoring successful")] |},
     l).
Proof.
  intros H. unfold PostScore. rewrite (bind_document text _ H). reflexivity.
Qed.

(** X8. A handler with a scorer answers the request
    [{"documentText": text}], for every non-empty [text], with status 200,
    the word count of the text, its score, and the message
    [Scoring successful]; it writes nothing to the log. *)
Theorem PostScore_scores_document (arch : Arch) (s : WordScorer) (text : string)
        (l : log.Logger) :
  text <> "" ->
  PostScore arch (NewScoreHandler (Some s))
            (gin.Document (JObject [("documentText", JString text)])) l
  = ({| gin.status := 200;
        gin.body := JObject [("wordCount", JNumber (CountWords s text));
                             ("score", JNumber (CalculateScore arch s text));
                             ("message", JString "Scoring successful")] |},
     l).
Proof. apply score_document. Qed.

Lemma PostScore_scores_document_witness :
  "one two three" <> ""
  /\ PostScore amd64 (NewScoreHandler (Some appScorer))
               (gin.Document (JObject [("documentText", JString "one two three")])) stderr
     = ({| gin.status := 200;
           gin.body := JObject [("wordCount", JNumber 3); ("score", JNumber 21);
                                ("message", JString "Scoring successful")] |},
        stderr).
Proof.
  split; [discriminate|].
  rewrite (PostScore_scores_document amd64 appScorer "one two three" stderr);
    [reflexivity | discriminate].
Defined.

(** X9. An empty [documentText] is refused with status 400 (the field is
    required), whereas a non-empty text made of white space only is
    accepted: the answer is 200 with a word count of 0 and the score
    [MinScore]. *)
Theorem PostScore_empty_and_blank_text (arch : Arch) (s : WordScorer) (l : log.Logger) :
  PostScore arch (NewScoreHandler (Some s))
            (gin.Document (JObject [("documentText", JString "")])) l
  = ({| gin.status := 400;
        gin.body := JObject [("wordCount", JNumber 0); ("score", JNumber 0);
                             ("message", JString "Invalid request body: Key: 'ScoreRequest.TextToScore' Error:Field validation for 'TextToScore' failed on the 'required' tag")] |},
     l)
  /\ (forall text,
         text <> "" -> spec.blank text = true ->
         PostScore arch (NewScoreHandler (Some s))
                   (gin.Document (JObject [("documentText", JString text)])) l
         = ({| gin.status := 200;
               gin.body := JObject [("wordCount", JNumber 0);
                                    ("score", JNumber (MinScore (config s)));
                                    ("message", JString "Scoring successful")] |},
            l)).
Proof.
  split; [reflexivity|].
  intros text Hne Hb. rewrite (score_document arch s text l Hne).
  pose proof (CountWords_blank s text Hb) as Hw.
  assert (Hs : CalculateScore arch s text = MinScore (config s))
    by (unfold CalculateScore; now rewrite Hw).
  now rewrite Hw, Hs.
Qed.

Lemma PostScore_empty_and_blank_text_witness :
  "   " <> "" /\ spec.blank "   " = true
  /\ gin.status (fst (PostScore amd64 (NewScoreHandler (Some appScorer))
                                (gin.Document (JObject [("documentText", JString "   ")]))
                                stderr)) = 200.
Proof.
  split; [discriminate|]. split; [reflexivity|].
  rewrite (proj2 (PostScore_empty_and_blank_text amd64 appScorer stderr) "   ");
    [reflexivity | discriminate | reflexivity].
Defined.

Lemma no_scorer_reply (arch : Arch) (text : string) (l : log.Logger) :
  text <> "" ->
  PostScore arch (NewScoreHandler None)
            (gin.Document (JObject [("documentText", JString text)])) l
  = ({| gin.status := 500;
        gin.body := JObject [("wordCount", JNumber 0); ("score", JNumber 0);
                             ("message", JString "Server configuration error: scorer not available.")] |},
     log.Println "Error: Scorer not initialized in handler!" l).
Proof.
  intros H. unfold PostScore. rewrite (bind_document text _ H). reflexivity.
Qed.

(** X10. A handler without a scorer never answers 200.  It binds the
    body first: a body at whose start no JSON value can be read gets 400
    and leaves the log as it is; a body that starts with
    [{"documentText": text}], [text] not empty, whatever follows that
    object, gets 500 with the message
    [Server configuration error: scorer not available.], and one event is
    written to the log.  In particular a text that is not valid JSON, for
    what follows its first value, is answered 500 and logged, not 400. *)
Theorem PostScore_without_scorer (arch : Arch) (l : log.Logger) :
  (forall body, gin.status (fst (PostScore arch (NewScoreHandler None) body l)) <> 200)
  /\ (forall complaint,
         PostScore arch (NewScoreHandler None)
                   (gin.read (encoding_json.NoValue complaint)) l
         = ({| gin.status := 400;
               gin.body := JObject [("wordCount", JNumber 0); ("score", JNumber 0);
                                    ("message",
                                     JString ("Invalid request body: " ++ complaint))] |},
            l))
  /\ (forall text rest,
         text <> "" ->
         PostScore arch (NewScoreHandler None)
                   (gin.read (encoding_json.Value
                                (JObject [("documentText", JString text)]) rest)) l
         = ({| gin.status := 500;
               gin.body := JObject [("wordCount", JNumber 0); ("score", JNumber 0);
                                    ("message", JString "Server configuration error: scorer not available.")] |},
            match log.write_error l with
            | None => {| log.write_error := None;
                         log.lines := log.lines l ++ ["Error: Scorer not initialized in handler!"] |}
            | Some _ => l
            end)).
Proof.
  split; [|split].
  - intros body. unfold PostScore.
    destruct (gin.ShouldBindJSON body _) as [req [e|]]; simpl; discriminate.
  - intros complaint. reflexivity.
  - intros text rest H. cbn [gin.read]. rewrite (no_scorer_reply arch text l H).
    unfold log.Println, log.Output. now destruct (log.write_error l).
Qed.

Lemma PostScore_without_scorer_witness :
  let text := encoding_json.Value (JObject [("documentText", JString "hello")])
                                  " trailing" in
  "hello" <> ""
  /\ encoding_json.Valid text = false
  /\ PostScore amd64 (NewScoreHandler None) (gin.read text) stderr
     = ({| gin.status := 500;
           gin.body := JObject [("wordCount", JNumber 0); ("score", JNumber 0);
                                ("message", JString "Server configuration error: scorer not available.")] |},
        {| log.write_error := None;
           log.lines := ["Error: Scorer not initialized in handler!"] |}).
Proof.
  cbv zeta. split; [discriminate|]. split; [reflexivity|].
  rewrite (proj2 (proj2 (PostScore_without_scorer amd64 stderr)) "hello" " trailing");
    [reflexivity | discriminate].
Defined.

(** X11. Construction and handler together: on a configuration that
    breaks an invariant, with a log that accepts the write,
    [NewWordScorer] returns a nil scorer and a nil error, and the handler
    built from that scorer answers 500 to every request
    [{"documentText": text}] with a non-empty text. *)
Theorem invalid_configuration_serves_500 (c : WordScorerConfig) (l : log.Logger) :
  spec.valid c = false -> log.write_error l = None ->
  fst (NewWordScorer c l) = (None, None)
  /\ (forall arch text l',
         text <> "" ->
         gin.status
           (fst (PostScore arch (NewScoreHandler (fst (fst (NewWordScorer c l))))
                           (gin.Document (JObject [("documentText", JString text)])) l'))
         = 500).
Proof.
  intros V W. pose proof (NewWordScorer_invalid c l V) as H. rewrite W in H.
  split; [exact H|]. intros arch text l' Hne. rewrite H. cbn [fst].
  now rewrite (no_scorer_reply arch text l' Hne).
Qed.

Lemma invalid_configuration_serves_500_witness :
  let c := {| MinScore := 20; MaxScore := 40; ThresholdWordsForMaxScore := 0 |} in
  spec.valid c = false /\ log.write_error stderr = None
  /\ fst (NewWordScorer c stderr) = (None, None).
Proof.
  split; [reflexivity|]. split; [reflexivity|].
  apply (proj1 (invalid_configuration_serves_500
                  {| MinScore := 20; MaxScore := 40; ThresholdWordsForMaxScore := 0 |}
                  stderr eq_refl eq_refl)).
Defined.

(** X12. A handler whose scorer comes from [NewWordScorer] on a valid
    configuration answers every body with 200 or 400 and never writes to
    the log; in a 200 answer the word count is not negative and the score
    lies between [MinScore] and [MaxScore]. *)
Theorem valid_configuration_replies (c : WordScorerConfig) (l : log.Logger)
        (arch : Arch) (body : gin.Body) (l' : log.Logger) :
  spec.valid c = true ->
  let h := NewScoreHandler (fst (fst (NewWordScorer c l))) in
  snd (PostScore arch h body l') = l'
  /\ (gin.status (fst (PostScore arch h body l')) = 400
      \/ exists wordCount score,
           fst (PostScore arch h body l')
           = {| gin.status := 200;
                gin.body := JObject [("wordCount", JNumber wordCount);
                                     ("score", JNumber score);
                                     ("message", JString "Scoring successful")] |}
           /\ 0 <= wordCount
           /\ MinScore c <= score <= MaxScore c).
Proof.
  intros V h. unfold h. rewrite (NewWordScorer_valid c l V). cbn [fst].
  unfold PostScore. destruct (gin.ShouldBindJSON body _) as [req [e|]]; cbn [scorer NewScoreHandler].
  - split; [reflexivity | left; reflexivity].
  - split; [reflexivity | right].
    exists (CountWords {| config := c |} (TextToScore req)),
           (CalculateScore arch {| config := c |} (TextToScore req)).
    split; [reflexivity|]. split; [apply CountWords_nonneg|].
    apply (score_range arch {| config := c |} (TextToScore req) V).
Qed.

Lemma valid_configuration_replies_witness :
  spec.valid scorerConfig = true
  /\ snd (PostScore amd64 (NewScoreHandler (fst (fst (NewWordScorer scorerConfig stderr))))
                    (gin.Document (JObject [])) stderr) = stderr.
Proof.
  split; [reflexivity|].
  apply (proj1 (valid_configuration_replies scorerConfig stderr amd64
                  (gin.Document (JObject [])) stderr eq_refl)).
Defined.

(** X13. Whatever the handler, the body and the outcome, the answer is
    200, 400 or 500 and its body is an object with exactly the members
    [wordCount], [score] and [message], in that order, the message never
    empty: [originalText] is never sent.  In an answer other than 200 the
    word count and the score are both 0. *)
Theorem PostScore_reply_shape (arch : Arch) (h : ScoreHandler) (body : gin.Body)
        (l : log.Logger) :
  exists wordCount score message,
    gin.body (fst (PostScore arch h body l))
    = JObject [("wordCount", JNumber wordCount); ("score", JNumber score);
               ("message", JString message)]
    /\ message <> ""
    /\ (gin.status (fst (PostScore arch h body l)) = 200
        \/ (wordCount = 0 /\ score = 0
            /\ (gin.status (fst (PostScore arch h body l)) = 400
                \/ gin.status (fst (PostScore arch h body l)) = 500))).
Proof.
  unfold PostScore. destruct (gin.ShouldBindJSON body _) as [req [e|]].
  - exists 0, 0, ("Invalid request body: " ++ e)%string.
    split; [reflexivity|]. split; [discriminate|]. right. auto.
  - destruct (scorer h) as [s|].
    + exists (CountWords s (TextToScore req)), (CalculateScore arch s (TextToScore req)),
             "Scoring successful".
      split; [reflexivity|]. split; [discriminate|]. left. reflexivity.
    + exists 0, 0, "Server configuration error: scorer not available.".
      split; [reflexivity|]. split; [discriminate|]. right. auto.
Qed.

(* ===================================================================== *)
(** * Further properties: longer texts *)
(* ===================================================================== *)

Lemma score_mono (arch : Arch) (s : WordScorer) (text1 text2 : string) :
  spec.valid (config s) = true ->
  MaxScore (config s) <= 2 ^ 62 ->
  CountWords s text1 <= CountWords s text2 ->
  CalculateScore arch s text1 <= CalculateScore arch s text2.
Proof.
  intros Hv H62 Hw.
  pose proof (score_range arch s text1 Hv) as R1.
  pose proof (score_range arch s text2 Hv) as R2.
  pose proof (CountWords_nonneg s text1) as N1.
  destruct (valid_inv _ Hv) as (V1 & V2 & V3).
  unfold CalculateScore in *.
  destruct (CountWords s text1 =? 0) eqn:Z1; [lia|].
  destruct (CountWords s text2 =? 0) eqn:Z2; [lia|].
  destruct (CountWords s text2 >=? ThresholdWordsForMaxScore (config s)) eqn:T2; [lia|].
  destruct (CountWords s text1 >=? ThresholdWordsForMaxScore (config s)) eqn:T1; [lia|].
  apply clamp_mono; [lia|].
  apply (finalScore_mono arch s Hv H62); lia.
Qed.

(** X14. Writing more never costs points: for a valid configuration with
    [MaxScore <= 2^62], on every target, a text continued by an ASCII
    white space character and any further text scores at least as much
    as the text alone, and a text put after such a prefix scores at least
    as much as alone. *)
Theorem CalculateScore_grows_with_text (arch : Arch) (s : WordScorer) (a b : string)
        (c : ascii) :
  spec.valid (config s) = true ->
  MaxScore (config s) <= 2 ^ 62 ->
  byte_val c < 128 -> unicode.IsSpace (byte_val c) = true ->
  CalculateScore arch s a <= CalculateScore arch s (a ++ String c b)%string
  /\ CalculateScore arch s b <= CalculateScore arch s (a ++ String c b)%string.
Proof.
  intros Hv H62 Hc Hsp.
  pose proof (CountWords_nonneg s a) as Na.
  pose proof (CountWords_nonneg s b) as Nb.
  assert (J : CountWords s (a ++ String c b)%string = CountWords s a + CountWords s b).
  { unfold CountWords, len. rewrite (Fields_app a b c Hc Hsp), length_app. lia. }
  split; apply (score_mono arch s _ _ Hv H62); lia.
Qed.

Lemma CalculateScore_grows_with_text_witness :
  spec.valid (config appScorer) = true
  /\ MaxScore (config appScorer) <= 2 ^ 62
  /\ byte_val " "%char < 128 /\ unicode.IsSpace (byte_val " "%char) = true
  /\ CalculateScore amd64 appScorer "hello world"
     <= CalculateScore amd64 appScorer ("hello world" ++ String " "%char "bonjour")%string.
Proof.
  split; [reflexivity|]. split; [vm_compute; discriminate|].
  split; [reflexivity|]. split; [reflexivity|].
  apply (proj1 (CalculateScore_grows_with_text amd64 appScorer "hello world" "bonjour"
                  " "%char eq_refl ltac:(vm_compute; discriminate) eq_refl eq_refl)).
Defined.
